(** * Keplerian orbit propagation: the [Satellite] class and its helpers

    A shallow embedding of [satellite.py] (class [Satellite]) and of the
    propagation helpers of [orbital_mechanics.py], with the properties
    the specification states about them.

    Numbers.  A Python float that the program stores or compares (the
    orbital elements, the sampling durations) is an exact rational [Q]:
    every finite float is one, and [+], [-], [*], [/] and the comparisons
    are then the exact ones.  A quantity that goes through [np.sqrt],
    [np.sin], [np.cos], [np.arctan2] or [np.pi] is a real number [R].
    Rounding, NaN, the infinities and overflow are outside this model.

    Errors.  A Python exception is the left summand of [result].  A
    division whose divisor is zero has no value in the model and is
    reported as [ZeroDivisionError], also where numpy would deliver
    [inf] or [nan]: "the call returns a value" then has content.

    Objects.  A method of [Satellite] runs on the receiver and gives the
    receiver back with its result ([Method]), so that "the element set
    is left unchanged" is a statement about the code. *)

From Stdlib Require Import Reals QArith Qreals Qround ZArith Psatz.
From Stdlib Require Import List String Bool.
Import ListNotations.

Local Open Scope string_scope.

(** ** Exceptions and results *)

Inductive exn : Type :=
| ValueError (msg : string)
| TypeError (msg : string)
| ZeroDivisionError.

Definition result (A : Type) : Type := (exn + A)%type.

Definition ok {A} (a : A) : result A := inr a.
Definition raise {A} (e : exn) : result A := inl e.

Definition is_ValueError {A} (r : result A) : Prop :=
  exists msg, r = inl (ValueError msg).

Definition is_TypeError {A} (r : result A) : Prop :=
  exists msg, r = inl (TypeError msg).

(** ** The data model *)

(** [datetime.datetime]: only its being a datetime matters to the class. *)
Record datetime : Type := mk_datetime {
  year : Z; month : Z; day : Z; hour : Z; minute : Z; second : Z
}.

(** The attributes [__init__] assigns (lines 74-82). *)
Record Satellite : Type := mk_Satellite {
  name : string;
  satellite_id : string;
  inclination : Q;
  eccentricity : Q;
  semi_major_axis : Q;
  mean_anomaly : Q;
  raan : Q;
  argument_of_perigee : Q;
  epoch : datetime
}.

(** The Python values a caller can pass where the code tests
    [isinstance]. *)
Inductive value : Type :=
| VNone
| VBool (b : bool)
| VInt (z : Z)
| VFloat (q : Q)
| VStr (s : string)
| VDatetime (d : datetime)
| VSat (s : Satellite).

(** [isinstance(v, (int, float))] together with [float(v)]: [bool] is a
    subclass of [int]. *)
Definition as_number (v : value) : option Q :=
  match v with
  | VBool b => Some (if b then 1 else 0)%Q
  | VInt z => Some (inject_Z z)
  | VFloat q => Some q
  | _ => None
  end.

(** [isinstance(v, str)] *)
Definition as_str (v : value) : option string :=
  match v with VStr s => Some s | _ => None end.

(** [isinstance(v, datetime)] *)
Definition as_datetime (v : value) : option datetime :=
  match v with VDatetime d => Some d | _ => None end.

(** [isinstance(v, Satellite)] *)
Definition as_satellite (v : value) : option Satellite :=
  match v with VSat s => Some s | _ => None end.

(** [type(v)] as an f-string prints it. *)
Definition type_repr (v : value) : string :=
  match v with
  | VNone => "<class 'NoneType'>"
  | VBool _ => "<class 'bool'>"
  | VInt _ => "<class 'int'>"
  | VFloat _ => "<class 'float'>"
  | VStr _ => "<class 'str'>"
  | VDatetime _ => "<class 'datetime.datetime'>"
  | VSat _ => "<class 'satellite.Satellite'>"
  end.

(** Truth value of a string: [not s] holds of the empty string. *)
Definition str_nonempty (s : string) : bool :=
  match s with EmptyString => false | String _ _ => true end.

(** Comparisons of exact numbers as booleans. *)
Definition Qltb (x y : Q) : bool := negb (Qle_bool y x).
Definition Qleb (x y : Q) : bool := Qle_bool x y.

(** ** [Satellite.__init__] (satellite.py, lines 32-82) *)

Definition default_raan : value := VFloat 0.
Definition default_argument_of_perigee : value := VFloat 0.

Definition __init__ (name satellite_id inclination eccentricity
    semi_major_axis mean_anomaly epoch : value)
    (raan argument_of_perigee : option value) : result Satellite :=
  let raan := match raan with Some v => v | None => default_raan end in
  let argument_of_perigee :=
    match argument_of_perigee with
    | Some v => v
    | None => default_argument_of_perigee
    end in
  match as_str name with
  | Some name' =>
    if negb (str_nonempty name') then
      raise (ValueError "Satellite name must be a non-empty string")
    else
    match as_str satellite_id with
    | Some id' =>
      if negb (str_nonempty id') then
        raise (ValueError "Satellite ID must be a non-empty string")
      else
      match as_number inclination with
      | Some i =>
        if Qltb i 0 || Qltb 180 i then
          raise (ValueError "Inclination must be a number between 0 and 180 degrees")
        else
        match as_number eccentricity with
        | Some e =>
          if Qltb e 0 || Qleb 1 e then
            raise (ValueError "Eccentricity must be a number between 0 and 1")
          else
          match as_number semi_major_axis with
          | Some a =>
            if Qleb a 0 then
              raise (ValueError "Semi-major axis must be a positive number")
            else
            match as_number mean_anomaly with
            | Some m =>
              match as_datetime epoch with
              | Some ep =>
                match as_number raan with
                | Some Om =>
                  if Qltb Om 0 || Qleb 360 Om then
                    raise (ValueError "RAAN must be a number between 0 and 360 degrees")
                  else
                  match as_number argument_of_perigee with
                  | Some w =>
                    if Qltb w 0 || Qleb 360 w then
                      raise (ValueError "Argument of perigee must be a number between 0 and 360 degrees")
                    else
                      ok (mk_Satellite name' id' i e a m Om w ep)
                  | None =>
                    raise (ValueError "Argument of perigee must be a number between 0 and 360 degrees")
                  end
                | None =>
                  raise (ValueError "RAAN must be a number between 0 and 360 degrees")
                end
              | None => raise (ValueError "Epoch must be a datetime object")
              end
            | None => raise (ValueError "Mean anomaly must be a number")
            end
          | None => raise (ValueError "Semi-major axis must be a positive number")
          end
        | None => raise (ValueError "Eccentricity must be a number between 0 and 1")
        end
      | None =>
        raise (ValueError "Inclination must be a number between 0 and 180 degrees")
      end
    | None => raise (ValueError "Satellite ID must be a non-empty string")
    end
  | None => raise (ValueError "Satellite name must be a non-empty string")
  end.

(** What a constructed element set satisfies: the ranges [__init__]
    tests, on the stored attributes. *)
Record valid_elements (s : Satellite) : Prop := {
  valid_name : str_nonempty (name s) = true;
  valid_id : str_nonempty (satellite_id s) = true;
  valid_inclination : (0 <= inclination s /\ inclination s <= 180)%Q;
  valid_eccentricity : (0 <= eccentricity s /\ eccentricity s < 1)%Q;
  valid_semi_major_axis : (0 < semi_major_axis s)%Q;
  valid_raan : (0 <= raan s /\ raan s < 360)%Q;
  valid_argument_of_perigee :
    (0 <= argument_of_perigee s /\ argument_of_perigee s < 360)%Q
}.

(** ** Altitudes (lines 211-244) *)

Definition earth_radius : Q := 6371.

Definition get_altitude (self : Satellite) : Q :=
  (semi_major_axis self - earth_radius)%Q.



(** ** Comparison operators (lines 266-314) *)

Definition __eq__ (self : Satellite) (other : value) : result bool :=
  match as_satellite other with
  | None => ok false
  | Some o => ok (String.eqb (satellite_id self) (satellite_id o))
  end.

Definition cannot_compare (other : value) : exn :=
  TypeError ("Cannot compare Satellite with " ++ type_repr other).

Definition __lt__ (self : Satellite) (other : value) : result bool :=
  match as_satellite other with
  | None => raise (cannot_compare other)
  | Some o => ok (Qltb (get_altitude self) (get_altitude o))
  end.

Definition __le__ (self : Satellite) (other : value) : result bool :=
  match as_satellite other with
  | None => raise (cannot_compare other)
  | Some o => ok (Qleb (get_altitude self) (get_altitude o))
  end.

Definition __gt__ (self : Satellite) (other : value) : result bool :=
  match as_satellite other with
  | None => raise (cannot_compare other)
  | Some o => ok (Qltb (get_altitude o) (get_altitude self))
  end.

Definition __ge__ (self : Satellite) (other : value) : result bool :=
  match as_satellite other with
  | None => raise (cannot_compare other)
  | Some o => ok (Qleb (get_altitude o) (get_altitude self))
  end.

(** ** Methods: the receiver is threaded through every call *)

Definition Method (A : Type) : Type := Satellite -> Satellite * result A.

Definition mret {A} (a : A) : Method A := fun self => (self, ok a).

Definition mraise {A} (e : exn) : Method A := fun self => (self, raise e).

(** Reading an attribute of [self]. *)
Definition attr {A} (f : Satellite -> A) : Method A :=
  fun self => (self, ok (f self)).

(** A computation that does not touch [self]. *)
Definition lift {A} (r : result A) : Method A := fun self => (self, r).

Definition mbind {A B} (m : Method A) (k : A -> Method B) : Method B :=
  fun self =>
    match m self with
    | (self', inr a) => k a self'
    | (self', inl e) => (self', inl e)
    end.

Notation "x <- m ;; k" := (mbind m (fun x => k))
  (at level 61, m at next level, right associativity).

(** A method that gives the receiver back as it got it. *)
Definition read_only {A} (m : Method A) : Prop :=
  forall self, fst (m self) = self.

(** ** Real arithmetic as the code uses it *)

Local Open Scope R_scope.

Definition vec : Type := (R * R * R)%type.

(** [x / y] *)
Definition py_div (x y : R) : result R :=
  if Req_dec_T y 0 then raise ZeroDivisionError else ok (x / y).

(** [x % y] on floats, for a divisor that is not zero: the result has
    the sign of the divisor. *)
Definition py_mod (x y : R) : R := x - IZR (Int_part (x / y)) * y.

(** [np.radians] *)
Definition radians (x : R) : R := x * PI / 180.

(** [np.arctan2(y, x)] *)
Definition arctan2 (y x : R) : R :=
  if Rlt_dec 0 x then atan (y / x)
  else if Rlt_dec x 0 then
    if Rle_dec 0 y then atan (y / x) + PI else atan (y / x) - PI
  else if Rlt_dec 0 y then PI / 2
  else if Rlt_dec y 0 then - (PI / 2)
  else 0.

(** Earth gravitational parameter (km^3/s^2). *)
Definition mu : R := 398600.4418.

(** ** [Satellite.solve_kepler_equation] (lines 84-125) *)

(** One pass of the loop body up to [E_new] (lines 111-117). *)
Definition newton_update (e M E : R) : result R :=
  let f := E - e * sin E - M in
  let f_prime := 1 - e * cos E in
  match py_div f f_prime with
  | inr q => ok (E - q)
  | inl x => inl x
  end.

(** The [for _ in range(max_iterations)] loop with the [return E] that
    follows it (lines 109-125). *)
Fixpoint kepler_loop (n : nat) (E M tolerance : R) : Method R :=
  match n with
  | O => mret E
  | S n' =>
    e <- attr (fun self => Q2R (eccentricity self)) ;;
    E_new <- lift (newton_update e M E) ;;
    if Rlt_dec (Rabs (E_new - E)) tolerance then mret E_new
    else kepler_loop n' E_new M tolerance
  end.

Definition solve_kepler_equation (mean_anomaly_rad tolerance : R)
    (max_iterations : Z) : Method R :=
  e <- attr eccentricity ;;
  let E := if Qltb e 0.8 then mean_anomaly_rad else PI in
  let mean_anomaly_rad := py_mod mean_anomaly_rad (2 * PI) in
  kepler_loop (Z.to_nat max_iterations) E mean_anomaly_rad tolerance.

Definition default_tolerance : R := 1e-10.
Definition default_max_iterations : Z := 100.

(** ** [Satellite.calculate_position] (lines 127-209) *)

(** From the eccentric anomaly to the position (lines 159-209): true
    anomaly, radius, perifocal coordinates and the three rotations. *)
Definition position_from_eccentric_anomaly (E : R) : Method vec :=
  ecc <- attr eccentricity ;;
  nu <- (if Qltb ecc 1e-10 then mret E
         else
           let e := Q2R ecc in
           q <- lift (py_div (1 + e) (1 - e)) ;;
           let sqrt_term := sqrt q in
           mret (2 * arctan2 (sqrt_term * sin (E / 2)) (cos (E / 2)))) ;;
  a <- attr (fun self => Q2R (semi_major_axis self)) ;;
  e <- attr (fun self => Q2R (eccentricity self)) ;;
  r <- lift (py_div (a * (1 - e ^ 2)) (1 + e * cos nu)) ;;
  let x_pqw := r * cos nu in
  let y_pqw := r * sin nu in
  let z_pqw := 0 in
  omega <- attr (fun self => radians (Q2R (argument_of_perigee self))) ;;
  i <- attr (fun self => radians (Q2R (inclination self))) ;;
  Omega <- attr (fun self => radians (Q2R (raan self))) ;;
  let cos_omega := cos omega in
  let sin_omega := sin omega in
  let cos_i := cos i in
  let sin_i := sin i in
  let cos_Omega := cos Omega in
  let sin_Omega := sin Omega in
  let x1 := x_pqw * cos_omega - y_pqw * sin_omega in
  let y1 := x_pqw * sin_omega + y_pqw * cos_omega in
  let z1 := z_pqw in
  let x2 := x1 in
  let y2 := y1 * cos_i - z1 * sin_i in
  let z2 := y1 * sin_i + z1 * cos_i in
  let x := x2 * cos_Omega - y2 * sin_Omega in
  let y := x2 * sin_Omega + y2 * cos_Omega in
  let z := z2 in
  mret (x, y, z).

(** The mean anomaly the solver is called with (lines 146-154). *)
Definition mean_anomaly_at_time (time_delta_seconds : R) : Method R :=
  a <- attr (fun self => Q2R (semi_major_axis self)) ;;
  n2 <- lift (py_div mu (a ^ 3)) ;;
  let mean_motion := sqrt n2 in
  M0 <- attr (fun self => Q2R (mean_anomaly self)) ;;
  let mean_anomaly_rad := radians M0 in
  mret (mean_anomaly_rad + mean_motion * time_delta_seconds).

Definition calculate_position (time_delta_seconds : R) : Method vec :=
  if Rlt_dec time_delta_seconds 0 then
    mraise (ValueError "Time delta cannot be negative")
  else
    M <- mean_anomaly_at_time time_delta_seconds ;;
    E <- solve_kepler_equation M default_tolerance default_max_iterations ;;
    position_from_eccentric_anomaly E.

(** ** Helpers of [orbital_mechanics.py] *)

(** A module-level function that calls methods of its [satellite]
    argument: the object comes back with the result. *)
Definition on_satellite {A} (satellite : value) (m : Method A)
  : value * result A :=
  match as_satellite satellite with
  | None => (satellite, raise (TypeError "satellite must be a Satellite instance"))
  | Some s => let (s', r) := m s in (VSat s', r)
  end.

(** [calculate_orbital_period] (lines 176-195) *)
Definition calculate_orbital_period (satellite : value) : value * result R :=
  on_satellite satellite (
    a <- attr (fun self => Q2R (semi_major_axis self)) ;;
    q <- lift (py_div (a ^ 3) mu) ;;
    let period := 2 * PI * sqrt q in
    mret period).

(** Euclidean norm, as [calculate_velocity] computes the radius. *)
Definition norm3 (pos : vec) : R :=
  let '(x, y, z) := pos in sqrt (x ^ 2 + y ^ 2 + z ^ 2).

(** [calculate_velocity] (lines 198-225) *)
Definition calculate_velocity (satellite : value) (time_delta_seconds : R)
  : value * result R :=
  on_satellite satellite (
    pos <- calculate_position time_delta_seconds ;;
    let r := norm3 pos in
    a <- attr (fun self => Q2R (semi_major_axis self)) ;;
    q1 <- lift (py_div 2 r) ;;
    q2 <- lift (py_div 1 a) ;;
    let velocity := sqrt (mu * (q1 - q2)) in
    mret velocity).

(** ** Time sampling (orbital_mechanics.py, lines 92-173) *)

Local Open Scope Q_scope.

(** [x / y] on the exact numbers. *)
Definition py_divQ (x y : Q) : result Q :=
  if Qeq_bool y 0 then raise ZeroDivisionError else ok (x / y).

(** [int(x)]: truncation toward zero. *)
Definition py_int (x : Q) : Z := Z.quot (Qnum x) (Z.pos (Qden x)).

(** The [while i < num_points] loop (lines 130-139).  [i] grows by one
    in every pass, so [num_points - i] passes are all it can make;
    [fuel] counts them. *)
Fixpoint predict_loop (fuel : nat) (i num_points : Z)
    (effective_resolution time_hours : Q)
    (time_points : list Q) (positions : list vec)
  : Method (list Q * list vec) :=
  match fuel with
  | O => mret (time_points, positions)
  | S fuel' =>
    if (i <? num_points)%Z then
      let time_delta_seconds := inject_Z i * effective_resolution * 60 in
      acc <- (if Qleb time_delta_seconds (time_hours * 3600) then
                pos <- calculate_position (Q2R time_delta_seconds) ;;
                mret ((time_points ++ [time_delta_seconds])%list,
                      (positions ++ [pos])%list)
              else mret (time_points, positions)) ;;
      predict_loop fuel' (i + 1) num_points effective_resolution time_hours
        (fst acc) (snd acc)
    else mret (time_points, positions)
  end.

Definition predict_future_positions (satellite : value)
    (time_hours resolution_minutes smooth_factor : Q)
  : value * result (list Q * list vec) :=
  on_satellite satellite (
    if Qleb time_hours 0 then
      mraise (ValueError "time_hours must be positive")
    else if Qleb resolution_minutes 0 then
      mraise (ValueError "resolution_minutes must be positive")
    else
      effective_resolution <- lift (py_divQ resolution_minutes smooth_factor) ;;
      let total_minutes := time_hours * 60 in
      q <- lift (py_divQ total_minutes effective_resolution) ;;
      let num_points := py_int q in
      predict_loop (Z.to_nat num_points) 0 num_points
        effective_resolution time_hours [] []).

(** The generator object of [generate_position_generator]: not started,
    suspended at its [yield], or finished. *)
Inductive generator : Type :=
| GenCreated (satellite : value) (time_hours resolution_minutes : Q)
| GenSuspended (satellite : Satellite)
    (total_seconds resolution_seconds current_time : Q)
| GenFinished.

Definition generate_position_generator (satellite : value)
    (time_hours resolution_minutes : Q) : generator :=
  GenCreated satellite time_hours resolution_minutes.

(** The test of [while current_time <= total_seconds] and the body up
    to the [yield] (lines 170-172).  [None] is [StopIteration]. *)
Definition gen_enter_loop (satellite : Satellite)
    (total_seconds resolution_seconds current_time : Q)
  : generator * result (option (Q * vec)) :=
  if Qleb current_time total_seconds then
    match calculate_position (Q2R current_time) satellite with
    | (satellite', inr position) =>
      (GenSuspended satellite' total_seconds resolution_seconds current_time,
       ok (Some (current_time, position)))
    | (_, inl e) => (GenFinished, inl e)
    end
  else (GenFinished, ok None).

(** [next(g)] *)
Definition gen_next (g : generator)
  : generator * result (option (Q * vec)) :=
  match g with
  | GenCreated satellite time_hours resolution_minutes =>
    match as_satellite satellite with
    | None =>
      (GenFinished, raise (TypeError "satellite must be a Satellite instance"))
    | Some s =>
      let total_seconds := time_hours * 3600 in
      let resolution_seconds := resolution_minutes * 60 in
      let current_time := 0 in
      gen_enter_loop s total_seconds resolution_seconds current_time
    end
  | GenSuspended s total_seconds resolution_seconds current_time =>
    let current_time := current_time + resolution_seconds in
    gen_enter_loop s total_seconds resolution_seconds current_time
  | GenFinished => (GenFinished, ok None)
  end.

(** [list(g)], given [fuel] calls of [next]: [None] when the generator
    has not stopped by then. *)
Fixpoint gen_collect (fuel : nat) (g : generator)
  : option (result (list (Q * vec))) :=
  match fuel with
  | O => None
  | S fuel' =>
    match gen_next g with
    | (_, inl e) => Some (inl e)
    | (_, inr None) => Some (ok [])
    | (g', inr (Some item)) =>
      match gen_collect fuel' g' with
      | Some (inr items) => Some (ok (item :: items))
      | other => other
      end
    end
  end.

Local Open Scope string_scope.

(** ** Dictionaries and the exceptions a handler tells apart *)

(** A [dict] with string keys.  The code tests membership and reads
    keys; the first binding of a key is the one it sees. *)
Definition dict : Type := list (string * value).

(** [d.get(k)] *)
Fixpoint dict_get (k : string) (d : dict) : option value :=
  match d with
  | [] => None
  | (k', v) :: d' => if String.eqb k k' then Some v else dict_get k d'
  end.

(** [k in d] *)
Definition dict_mem (k : string) (d : dict) : bool :=
  match dict_get k d with Some _ => true | None => false end.

(** [d.get(k, default)] *)
Definition dict_get_default (k : string) (default : value) (d : dict) : value :=
  match dict_get k d with Some v => v | None => default end.

(** What the body of a [try] raises: [KeyError] with its argument,
    which [except (KeyError, ValueError)] catches beside [ValueError],
    or one of the exceptions of [exn]. *)
Inductive py_exn : Type :=
| KeyError (arg : string)
| PyExn (e : exn).

Definition attempt (A : Type) : Type := (py_exn + A)%type.

Definition abind {A B} (m : attempt A) (k : A -> attempt B) : attempt B :=
  match m with
  | inl e => inl e
  | inr a => k a
  end.

Notation "x <~ m ;; k" := (abind m (fun x => k))
  (at level 61, m at next level, right associativity).

Definition of_result {A} (r : result A) : attempt A :=
  match r with
  | inl e => inl (PyExn e)
  | inr a => inr a
  end.

(** [d[k]] *)
Definition subscript (d : dict) (k : string) : attempt value :=
  match dict_get k d with
  | Some v => inr v
  | None => inl (KeyError k)
  end.

(** [repr] of a string of printable ASCII characters: in single quotes,
    or in double quotes when it holds a single quote and no double
    quote; the backslash and the enclosing quote are escaped. *)
Definition double_quote : Ascii.ascii := Ascii.ascii_of_nat 34.
Definition single_quote : Ascii.ascii := Ascii.ascii_of_nat 39.
Definition backslash : Ascii.ascii := Ascii.ascii_of_nat 92.

Fixpoint has_char (c : Ascii.ascii) (s : string) : bool :=
  match s with
  | EmptyString => false
  | String c' s' => Ascii.eqb c c' || has_char c s'
  end.

Fixpoint escape (quote : Ascii.ascii) (s : string) : string :=
  match s with
  | EmptyString => EmptyString
  | String c s' =>
    if Ascii.eqb c backslash || Ascii.eqb c quote
    then String backslash (String c (escape quote s'))
    else String c (escape quote s')
  end.

Definition py_repr (s : string) : string :=
  let quote :=
    if has_char single_quote s && negb (has_char double_quote s)
    then double_quote else single_quote in
  String quote (escape quote s ++ String quote EmptyString).

(** [type(v).__name__] as the interpreter's messages print it. *)
Definition type_name (v : value) : string :=
  match v with
  | VNone => "NoneType"
  | VBool _ => "bool"
  | VInt _ => "int"
  | VFloat _ => "float"
  | VStr _ => "str"
  | VDatetime _ => "datetime.datetime"
  | VSat _ => "Satellite"
  end.

(** A float read from the data is the exact number it stands for; one
    computed through [np.pi] and a cube root is a real number. *)
Inductive number : Type :=
| Exact (q : Q)
| Computed (r : R).

Definition number_value (n : number) : R :=
  match n with
  | Exact q => Q2R q
  | Computed r => r
  end.

(** The dictionary [calculate_orbital_elements] returns (lines 81-87). *)
Record orbital_elements : Type := mk_orbital_elements {
  el_inclination : Q;
  el_eccentricity : Q;
  el_semi_major_axis : number;
  el_mean_anomaly : Q;
  el_epoch : datetime
}.

Section Parsing.

(** The two library parsers the code calls on strings: [float(s)],
    whose failure is a [ValueError], and [datetime.strptime(s,
    '%Y-%m-%d %H:%M:%S')], whose failure is a [ValueError] with the
    library's message.  The properties hold whatever they answer. *)
Variable str_to_float : string -> option Q.
Variable strptime : string -> string + datetime.

(** [float(v)] *)
Definition py_float (v : value) : result Q :=
  match v with
  | VBool b => ok (if b then 1 else 0)%Q
  | VInt z => ok (inject_Z z)
  | VFloat q => ok q
  | VStr s =>
    match str_to_float s with
    | Some q => ok q
    | None =>
      raise (ValueError ("could not convert string to float: " ++ py_repr s))
    end
  | _ =>
    raise (TypeError
             ("float() argument must be a string or a real number, not "
              ++ py_repr (type_name v)))
  end.

(** ** [calculate_orbital_elements] (orbital_mechanics.py, lines 13-89) *)

Definition required_fields : list string :=
  ["inclination"; "eccentricity"; "mean_anomaly"; "epoch"].

(** The [for field in required_fields] loop (lines 45-47). *)
Fixpoint check_required (fields : list string) (tle_data : dict)
  : attempt unit :=
  match fields with
  | [] => inr tt
  | field :: fields' =>
    if negb (dict_mem field tle_data)
    then inl (KeyError ("Missing required field: " ++ field))
    else check_required fields' tle_data
  end.

(** The epoch, from a string or a datetime (lines 67-73). *)
Definition parse_epoch (epoch_str : value) : attempt datetime :=
  match epoch_str with
  | VStr s =>
    match strptime s with
    | inr epoch => inr epoch
    | inl msg => inl (PyExn (ValueError msg))
    end
  | VDatetime epoch => inr epoch
  | _ => inl (PyExn (ValueError "Epoch must be a string or datetime object"))
  end.

Local Open Scope R_scope.

(** The body of the [try] (lines 43-87). *)
Definition orbital_elements_body (tle_data : dict)
  : attempt orbital_elements :=
  _ <~ check_required required_fields tle_data ;;
  v <~ subscript tle_data "inclination" ;;
  inclination <~ of_result (py_float v) ;;
  v <~ subscript tle_data "eccentricity" ;;
  eccentricity <~ of_result (py_float v) ;;
  v <~ subscript tle_data "mean_anomaly" ;;
  mean_anomaly <~ of_result (py_float v) ;;
  semi_major_axis <~
    (if dict_mem "semi_major_axis" tle_data then
       v <~ subscript tle_data "semi_major_axis" ;;
       a <~ of_result (py_float v) ;;
       inr (Exact a)
     else if dict_mem "mean_motion" tle_data then
       v <~ subscript tle_data "mean_motion" ;;
       mean_motion <~ of_result (py_float v) ;;
       let mean_motion_rad_per_sec := Q2R mean_motion * 2 * PI / 86400 in
       q <~ of_result (py_div mu (mean_motion_rad_per_sec ^ 2)) ;;
       inr (Computed (Rpower q (1 / 3)))
     else
       inl (KeyError
              "Either 'semi_major_axis' or 'mean_motion' must be provided")) ;;
  epoch_str <~ subscript tle_data "epoch" ;;
  epoch <~ parse_epoch epoch_str ;;
  if Qltb inclination 0 || Qltb 180 inclination then
    inl (PyExn (ValueError "Inclination must be between 0 and 180 degrees"))
  else if Qltb eccentricity 0 || Qleb 1 eccentricity then
    inl (PyExn (ValueError "Eccentricity must be between 0 and 1"))
  else
    inr (mk_orbital_elements inclination eccentricity semi_major_axis
           mean_anomaly epoch).

(** The handler [except (KeyError, ValueError) as e] (lines 88-89):
    [str(e)] is the message of a [ValueError] and the [repr] of the
    argument of a [KeyError]; any other exception passes through. *)
Definition calculate_orbital_elements (tle_data : dict)
  : result orbital_elements :=
  match orbital_elements_body tle_data with
  | inr elements => ok elements
  | inl (KeyError arg) =>
    raise (ValueError ("Error parsing orbital data: " ++ py_repr arg))
  | inl (PyExn (ValueError msg)) =>
    raise (ValueError ("Error parsing orbital data: " ++ msg))
  | inl (PyExn e) => raise e
  end.

End Parsing.

Local Open Scope string_scope.

(** ** [create_satellite_objects] (data_handler.py, lines 84-126) *)

(** The call [Satellite(name=sat_data['name'], ...)] of lines 102-112:
    the arguments are evaluated in the order they are written. *)
Definition satellite_from_dict (sat_data : dict) : attempt Satellite :=
  name <~ subscript sat_data "name" ;;
  satellite_id <~ subscript sat_data "id" ;;
  inclination <~ subscript sat_data "inclination" ;;
  eccentricity <~ subscript sat_data "eccentricity" ;;
  semi_major_axis <~ subscript sat_data "semi_major_axis" ;;
  mean_anomaly <~ subscript sat_data "mean_anomaly" ;;
  epoch <~ subscript sat_data "epoch" ;;
  let raan := dict_get_default "raan" (VFloat 0) sat_data in
  let argument_of_perigee :=
    dict_get_default "argument_of_perigee" (VFloat 0) sat_data in
  of_result (__init__ name satellite_id inclination eccentricity
               semi_major_axis mean_anomaly epoch
               (Some raan) (Some argument_of_perigee)).

(** An entry of [errors] (line 115): the text is
    [f"Satellite {index} ({name}): {error}"]; its three parts are kept
    as they are, not formatted. *)
Record creation_error : Type := mk_creation_error {
  err_index : Z;
  err_name : value;
  err_error : py_exn
}.

(** The [for idx, sat_data in enumerate(...)] loop (lines 100-116).
    An exception that is neither [ValueError] nor [KeyError] ends it. *)
Fixpoint create_loop (idx : Z) (satellite_data_list : list dict)
    (satellites : list Satellite) (errors : list creation_error)
  : result (list Satellite * list creation_error) :=
  match satellite_data_list with
  | [] => ok (satellites, errors)
  | sat_data :: rest =>
    match satellite_from_dict sat_data with
    | inr sat =>
      create_loop (idx + 1) rest (satellites ++ [sat])%list errors
    | inl e =>
      match e with
      | KeyError _ | PyExn (ValueError _) =>
        let error :=
          mk_creation_error (idx + 1)
            (dict_get_default "name" (VStr "unknown") sat_data) e in
        create_loop (idx + 1) rest satellites (errors ++ [error])%list
      | PyExn e' => raise e'
      end
    end
  end.

(** The function with what it prints: the entries of [errors], after a
    heading, when there are any (lines 118-121). *)
Definition create_satellite_objects (satellite_data_list : list dict)
  : list creation_error * result (list Satellite) :=
  match create_loop 0 satellite_data_list [] [] with
  | inl e => ([], raise e)
  | inr (satellites, errors) =>
    (errors,
     match satellites with
     | [] => raise (ValueError "No valid Satellite objects could be created")
     | _ => ok satellites
     end)
  end.

Local Open Scope Q_scope.

(** ** Notions the properties are stated with *)

Local Open Scope R_scope.

(** The residual of Kepler's equation, [E - e sin E - M]. *)
Definition kepler_residual (e M E : R) : R := E - e * sin E - M.

(** The Newton map [E - f(E) / f'(E)] of the loop body. *)
Definition newton_map (e M E : R) : R :=
  E - (E - e * sin E - M) / (1 - e * cos E).

(** The iterates [E_0, E_1, ...] the loop goes through as long as it
    does not return. *)
Fixpoint newton_iterate (e M E0 : R) (k : nat) : R :=
  match k with
  | O => E0
  | S k' => newton_map e M (newton_iterate e M E0 k')
  end.

(** The convergence test of line 120 at pass [k] (counted from 0). *)
Definition converged_at (e M tolerance E0 : R) (k : nat) : Prop :=
  Rabs (newton_iterate e M E0 (S k) - newton_iterate e M E0 k) < tolerance.

(** The initial guess of lines 100-103. *)
Definition initial_guess (self : Satellite) (mean_anomaly_rad : R) : R :=
  if Qltb (eccentricity self) 0.8 then mean_anomaly_rad else PI.

(** The domains of the constructor's arguments as the specification
    lists them. *)
Definition number_in (v : value) (P : Q -> Prop) : Prop :=
  exists q, as_number v = Some q /\ P q.

Definition nonempty_str (v : value) : Prop :=
  exists s, v = VStr s /\ s <> EmptyString.

Record in_domain (name satellite_id inclination eccentricity
    semi_major_axis mean_anomaly epoch raan argument_of_perigee : value)
  : Prop := {
  dom_name : nonempty_str name;
  dom_id : nonempty_str satellite_id;
  dom_inclination : number_in inclination (fun q => 0 <= q /\ q <= 180)%Q;
  dom_eccentricity : number_in eccentricity (fun q => 0 <= q /\ q < 1)%Q;
  dom_semi_major_axis : number_in semi_major_axis (fun q => 0 < q)%Q;
  dom_mean_anomaly : number_in mean_anomaly (fun _ => True);
  dom_epoch : exists d, epoch = VDatetime d;
  dom_raan : number_in raan (fun q => 0 <= q /\ q < 360)%Q;
  dom_argument_of_perigee :
    number_in argument_of_perigee (fun q => 0 <= q /\ q < 360)%Q
}.

Definition or_default (v : option value) (d : value) : value :=
  match v with Some x => x | None => d end.

(** What the loop returns: the iterate after the first pass whose test
    succeeds, or the last iterate when no test succeeds. *)
Definition loop_outcome (e M tol E0 : R) (n : nat) (E : R) : Prop :=
  (exists k, (k < n)%nat /\ converged_at e M tol E0 k /\
      (forall j, (j < k)%nat -> ~ converged_at e M tol E0 j) /\
      E = newton_iterate e M E0 (S k)) \/
  ((forall k, (k < n)%nat -> ~ converged_at e M tol E0 k) /\
   E = newton_iterate e M E0 n).

(** The true anomaly of lines 161-165, for an eccentricity below 1. *)
Definition true_anomaly (s : Satellite) (E : R) : R :=
  if Qltb (eccentricity s) 1e-10 then E
  else
    let e := Q2R (eccentricity s) in
    2 * arctan2 (sqrt ((1 + e) / (1 - e)) * sin (E / 2)) (cos (E / 2)).

(** The radius of line 171. *)
Definition orbital_radius (s : Satellite) (nu : R) : R :=
  let a := Q2R (semi_major_axis s) in
  let e := Q2R (eccentricity s) in
  a * (1 - e ^ 2) / (1 + e * cos nu).

(** Mean motion [sqrt(mu / a^3)] of line 150. *)
Definition mean_motion (s : Satellite) : R :=
  sqrt (mu / Q2R (semi_major_axis s) ^ 3).

(** The orbital period of [calculate_orbital_period]. *)
Definition orbital_period (s : Satellite) : R :=
  2 * PI * sqrt (Q2R (semi_major_axis s) ^ 3 / mu).

(** The position of lines 167-209 as a function of the true anomaly. *)
Definition eci_position (s : Satellite) (nu : R) : vec :=
  let r := orbital_radius s nu in
  let x_pqw := r * cos nu in
  let y_pqw := r * sin nu in
  let omega := radians (Q2R (argument_of_perigee s)) in
  let i := radians (Q2R (inclination s)) in
  let Omega := radians (Q2R (raan s)) in
  let x1 := x_pqw * cos omega - y_pqw * sin omega in
  let y1 := x_pqw * sin omega + y_pqw * cos omega in
  let y2 := y1 * cos i - 0 * sin i in
  let z2 := y1 * sin i + 0 * cos i in
  (x1 * cos Omega - y2 * sin Omega, x1 * sin Omega + y2 * cos Omega, z2).

(** [|u - v| <= tol * max(|u|, |v|)] *)
Definition rel_close (tol u v : R) : Prop :=
  Rabs (u - v) <= tol * Rmax (Rabs u) (Rabs v).

Definition vec_y (p : vec) : R := snd (fst p).

Local Open Scope Q_scope.





(** [ps] are the positions [calculate_position] returns at the times
    [tp], one by one. *)
Definition positions_at (s : Satellite) (tp : list Q) (ps : list vec) : Prop :=
  Forall2 (fun t p => calculate_position (Q2R t) s = (s, ok p)) tp ps.

(** The length of the step that pass [k] of the solver makes to the
    left. *)
Definition newton_step (e M E0 : R) (k : nat) : R :=
  (newton_iterate e M E0 k - newton_iterate e M E0 (S k))%R.

(** The eccentric anomaly [E] lies between the mean anomaly [M] and
    [pi], on the side of [pi] where [M] is, and its residual points
    away from [pi]. *)
Definition between_anomaly_and_pi (e M E : R) : Prop :=
  ((M <= PI -> M <= E <= PI /\ 0 <= kepler_residual e M E) /\
   (PI <= M -> PI <= E <= M /\ kepler_residual e M E <= 0))%R.


(** The dictionary [read_satellite_data_from_file] builds for a row
    (data_handler.py, lines 55-65), here from an element set. *)
Definition satellite_to_dict (s : Satellite) : dict :=
  [("name", VStr (name s));
   ("id", VStr (satellite_id s));
   ("inclination", VFloat (inclination s));
   ("eccentricity", VFloat (eccentricity s));
   ("semi_major_axis", VFloat (semi_major_axis s));
   ("mean_anomaly", VFloat (mean_anomaly s));
   ("raan", VFloat (raan s));
   ("argument_of_perigee", VFloat (argument_of_perigee s));
   ("epoch", VDatetime (epoch s))].

(** The rows of a list from which [Satellite(...)] constructs, in
    order. *)
Fixpoint constructible (l : list dict) : list Satellite :=
  match l with
  | [] => []
  | sat_data :: rest =>
    match satellite_from_dict sat_data with
    | inr sat => sat :: constructible rest
    | inl _ => constructible rest
    end
  end.



(** ** Element sets used in examples *)

(** The test fixtures of [test_satellite.py]. *)
Definition test_epoch : datetime := mk_datetime 2024 1 1 0 0 0.

Definition sample_satellite : Satellite :=
  mk_Satellite "TestSat" "12345" 51.6 0.001 6778 0 0 0 test_epoch.

Definition same_sat : Satellite :=
  mk_Satellite "DifferentName" "12345" 90 0.5 8000 180 0 0 test_epoch.

Definition higher_sat : Satellite :=
  mk_Satellite "HigherSat" "99999" 51.6 0.001 8000 0 0 0 test_epoch.




Definition half_sat : Satellite :=
  mk_Satellite "Half" "H5" 0 0.5 7000 0 0 0 test_epoch.

(** Mean anomaly 360.5 degrees at epoch, eccentricity 0.5. *)
Definition cycle_sat : Satellite :=
  mk_Satellite "Cycle" "K1" 0 0.5 7000 360.5 0 0 test_epoch.

(** An orbit of eccentricity 0.85. *)
Definition eccentric_sat : Satellite :=
  mk_Satellite "Eccentric" "E85" 63.4 0.85 45000 0 0 0 test_epoch.



Definition incomplete_tle : dict := [("inclination", VFloat 51.6)].

Definition no_float : string -> option Q := fun _ => None.

Definition test_strptime (s : string) : string + datetime :=
  if String.eqb s "2024-01-01 00:00:00" then inr test_epoch
  else inl "time data does not match format".

(** * Properties *)

(** ** Exact comparisons *)

Lemma Qltb_lt x y : Qltb x y = true <-> (x < y)%Q.
Proof.
  unfold Qltb. rewrite negb_true_iff. split.
  - intros H. apply Qnot_le_lt. intros Hle.
    apply Qle_bool_iff in Hle. congruence.
  - intros H. destruct (Qle_bool y x) eqn:E; [|reflexivity].
    apply Qle_bool_iff in E. exfalso. exact (Qlt_not_le _ _ H E).
Qed.


Lemma Qltb_ge x y : Qltb x y = false <-> (y <= x)%Q.
Proof.
  unfold Qltb. rewrite negb_false_iff. apply Qle_bool_iff.
Qed.

Lemma Qleb_gt x y : Qleb x y = false <-> (y < x)%Q.
Proof.
  rewrite <- Qltb_lt. unfold Qltb, Qleb.
  destruct (Qle_bool x y); simpl; intuition congruence.
Qed.

(** ** Equality and ordering of element sets *)



(** C7.  [s1 == s2] is decided by the satellite ids alone: it is true
    exactly when the two ids are the same string, whatever the other
    attributes are. *)
Theorem eq_by_satellite_id (s1 s2 : Satellite) :
  __eq__ s1 (VSat s2) = ok (String.eqb (satellite_id s1) (satellite_id s2)) /\
  (__eq__ s1 (VSat s2) = ok true <-> satellite_id s1 = satellite_id s2) /\
  (__eq__ s1 (VSat s2) = ok false <-> satellite_id s1 <> satellite_id s2).
Proof.
  unfold __eq__, ok; simpl. split; [reflexivity|].
  destruct (String.eqb_spec (satellite_id s1) (satellite_id s2)) as [E|E];
    split; split; intros H; try congruence; try reflexivity.
Qed.

(** The equality test of [test_equality_operator]: same id, other
    inclination, eccentricity, semi-major axis and mean anomaly. *)
Example eq_same_id_other_elements :
  __eq__ sample_satellite (VSat same_sat) = ok true /\
  __eq__ sample_satellite (VSat higher_sat) = ok false.
Proof. split; reflexivity. Qed.

(** C10.  Against a value that is not an element set, [==] answers
    [False] and raises nothing, while each of [<], [<=], [>], [>=]
    raises [TypeError] on the same operands. *)
Theorem eq_foreign_is_false (s : Satellite) (v : value)
    (Hv : as_satellite v = None) :
  __eq__ s v = ok false /\
  is_TypeError (__lt__ s v) /\ is_TypeError (__le__ s v) /\
  is_TypeError (__gt__ s v) /\ is_TypeError (__ge__ s v).
Proof.
  unfold __eq__, __lt__, __le__, __gt__, __ge__, cannot_compare, is_TypeError.
  rewrite Hv. repeat split; eexists; reflexivity.
Qed.

Lemma eq_foreign_is_false_witness :
  __eq__ sample_satellite (VStr "not a satellite") = ok false /\
  is_TypeError (__lt__ sample_satellite (VStr "not a satellite")) /\
  is_TypeError (__le__ sample_satellite (VStr "not a satellite")) /\
  is_TypeError (__gt__ sample_satellite (VStr "not a satellite")) /\
  is_TypeError (__ge__ sample_satellite (VStr "not a satellite")).
Proof.
  exact (eq_foreign_is_false sample_satellite (VStr "not a satellite") eq_refl).
Defined.




(** ** Construction *)

Lemma as_str_nonempty (v : value) (s : string) :
  as_str v = Some s -> str_nonempty s = true -> nonempty_str v.
Proof.
  destruct v; simpl; try discriminate. intros [= ->] H.
  exists s; split; [reflexivity|]. intros ->. discriminate.
Qed.

Lemma nonempty_str_inv (v : value) :
  nonempty_str v -> exists s, as_str v = Some s /\ str_nonempty s = true.
Proof.
  intros [s [-> Hs]]. exists s; split; [reflexivity|].
  destruct s; [congruence|reflexivity].
Qed.

Lemma range_test_closed (q lo hi : Q) :
  Qltb q lo || Qltb hi q = false <-> lo <= q /\ q <= hi.
Proof.
  rewrite orb_false_iff, !Qltb_ge. tauto.
Qed.

Lemma range_test_half_open (q lo hi : Q) :
  Qltb q lo || Qleb hi q = false <-> lo <= q /\ q < hi.
Proof.
  rewrite orb_false_iff, Qltb_ge, Qleb_gt. tauto.
Qed.

Ltac rejected :=
  left; split; [eexists; reflexivity|];
  let D := fresh "D" in
  intros D; destruct D as [D1 D2 D3 D4 D5 D6 D7 D8 D9].

Ltac number_clash E :=
  match goal with
  | H : number_in _ _ |- _ =>
    let q := fresh "q" in
    let Hq := fresh "Hq" in
    let HP := fresh "HP" in
    destruct H as [q [Hq HP]]; rewrite E in Hq;
    first [ discriminate Hq | injection Hq as <- ]
  end.

(** [__init__] either raises [ValueError], and then some argument is out
    of its domain, or returns the element set made of the arguments,
    which are then all in their domains. *)
Lemma init_cases (v_name v_id v_inclination v_eccentricity
    v_semi_major_axis v_mean_anomaly v_epoch : value)
    (o_raan o_argument_of_perigee : option value) :
  let r := __init__ v_name v_id v_inclination v_eccentricity
             v_semi_major_axis v_mean_anomaly v_epoch
             o_raan o_argument_of_perigee in
  let D := in_domain v_name v_id v_inclination v_eccentricity
             v_semi_major_axis v_mean_anomaly v_epoch
             (or_default o_raan default_raan)
             (or_default o_argument_of_perigee default_argument_of_perigee) in
  (is_ValueError r /\ ~ D) \/
  (exists s, r = ok s /\ D /\ valid_elements s /\
     as_str v_name = Some (name s) /\
     as_str v_id = Some (satellite_id s) /\
     as_number v_inclination = Some (inclination s) /\
     as_number v_eccentricity = Some (eccentricity s) /\
     as_number v_semi_major_axis = Some (semi_major_axis s) /\
     as_number v_mean_anomaly = Some (mean_anomaly s) /\
     as_datetime v_epoch = Some (epoch s)).
Proof.
  cbv zeta. unfold __init__, is_ValueError, raise.
  fold (or_default o_raan default_raan).
  fold (or_default o_argument_of_perigee default_argument_of_perigee).
  set (Om := or_default o_raan default_raan).
  set (w := or_default o_argument_of_perigee default_argument_of_perigee).
  destruct (as_str v_name) as [n|] eqn:En.
  2: { rejected. apply nonempty_str_inv in D1 as [s [Hs _]]. congruence. }
  destruct (str_nonempty n) eqn:Hn; simpl.
  2: { rejected. apply nonempty_str_inv in D1 as [s [Hs Hne]]. congruence. }
  destruct (as_str v_id) as [i|] eqn:Ei.
  2: { rejected. apply nonempty_str_inv in D2 as [s [Hs _]]. congruence. }
  destruct (str_nonempty i) eqn:Hi; simpl.
  2: { rejected. apply nonempty_str_inv in D2 as [s [Hs Hne]]. congruence. }
  destruct (as_number v_inclination) as [inc|] eqn:Einc.
  2: { rejected. clear - D3 Einc. number_clash Einc. }
  destruct (Qltb inc 0 || Qltb 180 inc) eqn:Tinc.
  { rejected. clear - D3 Einc Tinc. number_clash Einc.
    apply range_test_closed in HP. congruence. }
  destruct (as_number v_eccentricity) as [e|] eqn:Ee.
  2: { rejected. clear - D4 Ee. number_clash Ee. }
  destruct (Qltb e 0 || Qleb 1 e) eqn:Te.
  { rejected. clear - D4 Ee Te. number_clash Ee.
    apply range_test_half_open in HP. congruence. }
  destruct (as_number v_semi_major_axis) as [a|] eqn:Ea.
  2: { rejected. clear - D5 Ea. number_clash Ea. }
  destruct (Qleb a 0) eqn:Ta.
  { rejected. clear - D5 Ea Ta. number_clash Ea.
    apply Qleb_gt in HP. congruence. }
  destruct (as_number v_mean_anomaly) as [m|] eqn:Em.
  2: { rejected. clear - D6 Em. number_clash Em. }
  destruct (as_datetime v_epoch) as [ep|] eqn:Eep.
  2: { rejected. destruct D7 as [d ->]. discriminate. }
  destruct (as_number Om) as [O|] eqn:EO.
  2: { rejected. clear - D8 EO. number_clash EO. }
  destruct (Qltb O 0 || Qleb 360 O) eqn:TO.
  { rejected. clear - D8 EO TO. number_clash EO.
    apply range_test_half_open in HP. congruence. }
  destruct (as_number w) as [p|] eqn:Ep.
  2: { rejected. clear - D9 Ep. number_clash Ep. }
  destruct (Qltb p 0 || Qleb 360 p) eqn:Tp.
  { rejected. clear - D9 Ep Tp. number_clash Ep.
    apply range_test_half_open in HP. congruence. }
  right. eexists. split; [reflexivity|].
  apply range_test_closed in Tinc. apply range_test_half_open in Te, TO, Tp.
  apply Qleb_gt in Ta.
  split; [|split; [constructor; simpl; assumption | simpl; tauto]].
  constructor.
  - eapply as_str_nonempty; eassumption.
  - eapply as_str_nonempty; eassumption.
  - exists inc; auto.
  - exists e; auto.
  - exists a; auto.
  - exists m; auto.
  - destruct v_epoch; try discriminate. eexists; reflexivity.
  - exists O; auto.
  - exists p; auto.
Qed.

Local Open Scope R_scope.

(** ** Methods and the receiver *)

Section MethodLaws.

Context {A B : Type}.

Lemma mbind_ok (m : Method A) (k : A -> Method B) s s' a :
  m s = (s', ok a) -> mbind m k s = k a s'.
Proof. intros H. unfold mbind. rewrite H. reflexivity. Qed.

Lemma mbind_raise (m : Method A) (k : A -> Method B) s s' e :
  m s = (s', inl e) -> mbind m k s = (s', inl e).
Proof. intros H. unfold mbind. rewrite H. reflexivity. Qed.

Lemma read_only_mret (a : A) : read_only (mret a).
Proof. intros s; reflexivity. Qed.

Lemma read_only_mraise (e : exn) : read_only (@mraise A e).
Proof. intros s; reflexivity. Qed.

Lemma read_only_attr (f : Satellite -> A) : read_only (attr f).
Proof. intros s; reflexivity. Qed.

Lemma read_only_lift (r : result A) : read_only (lift r).
Proof. intros s; reflexivity. Qed.

Lemma read_only_mbind (m : Method A) (k : A -> Method B) :
  read_only m -> (forall a, read_only (k a)) -> read_only (mbind m k).
Proof.
  intros Hm Hk s. unfold mbind. specialize (Hm s).
  destruct (m s) as [s' [e|a]]; simpl in *; subst.
  - reflexivity.
  - apply Hk.
Qed.

Lemma read_only_if (b : bool) (m1 m2 : Method A) :
  read_only m1 -> read_only m2 -> read_only (if b then m1 else m2).
Proof. destruct b; auto. Qed.

Lemma read_only_sumbool {P Q : Prop} (b : {P} + {Q}) (m1 m2 : Method A) :
  read_only m1 -> read_only m2 -> read_only (if b then m1 else m2).
Proof. destruct b; auto. Qed.

End MethodLaws.

Create HintDb read_only.
#[local] Hint Resolve read_only_mret read_only_mraise read_only_attr
  read_only_lift read_only_if read_only_sumbool : read_only.

Ltac read_only_tac :=
  repeat first
    [ solve [auto with read_only]
    | apply read_only_mbind; [|intro]
    | apply read_only_if
    | apply read_only_sumbool ].

Lemma kepler_loop_read_only n : forall E M tol, read_only (kepler_loop n E M tol).
Proof.
  induction n as [|n IH]; intros E M tol; simpl.
  - apply read_only_mret.
  - read_only_tac.
Qed.

#[local] Hint Resolve kepler_loop_read_only : read_only.

Lemma solve_kepler_equation_read_only M tol cap :
  read_only (solve_kepler_equation M tol cap).
Proof.
  unfold solve_kepler_equation. read_only_tac.
Qed.

#[local] Hint Resolve solve_kepler_equation_read_only : read_only.

Lemma position_from_eccentric_anomaly_read_only E :
  read_only (position_from_eccentric_anomaly E).
Proof. unfold position_from_eccentric_anomaly. read_only_tac. Qed.

Lemma mean_anomaly_at_time_read_only t : read_only (mean_anomaly_at_time t).
Proof. unfold mean_anomaly_at_time. read_only_tac. Qed.

#[local] Hint Resolve position_from_eccentric_anomaly_read_only
  mean_anomaly_at_time_read_only : read_only.

Lemma calculate_position_read_only t : read_only (calculate_position t).
Proof.
  unfold calculate_position. read_only_tac.
Qed.

#[local] Hint Resolve calculate_position_read_only : read_only.

(** ** The Kepler solver *)

Lemma Q2R_eccentricity_bounds (s : Satellite) :
  valid_elements s -> 0 <= Q2R (eccentricity s) < 1.
Proof.
  intros V. destruct (valid_eccentricity s V) as [H0 H1].
  apply Qle_Rle in H0. apply Qlt_Rlt in H1.
  rewrite RMicromega.Q2R_0 in H0. rewrite RMicromega.Q2R_1 in H1. lra.
Qed.

Lemma Q2R_semi_major_axis_pos (s : Satellite) :
  valid_elements s -> 0 < Q2R (semi_major_axis s).
Proof.
  intros V. pose proof (valid_semi_major_axis s V) as H.
  apply Qlt_Rlt in H. rewrite RMicromega.Q2R_0 in H. exact H.
Qed.

Lemma kepler_denominator_pos (e E : R) :
  0 <= e < 1 -> 0 < 1 - e * cos E.
Proof.
  intros He. pose proof (COS_bound E) as Hc. nra.
Qed.

Lemma py_div_ok (x y : R) : y <> 0 -> py_div x y = ok (x / y).
Proof.
  intros H. unfold py_div. destruct (Req_dec_T y 0); [contradiction|reflexivity].
Qed.

Lemma newton_update_ok (e M E : R) :
  0 <= e < 1 -> newton_update e M E = ok (newton_map e M E).
Proof.
  intros He. unfold newton_update, newton_map.
  rewrite py_div_ok; [reflexivity|].
  pose proof (kepler_denominator_pos e E He). lra.
Qed.

Lemma newton_iterate_shift (e M E0 : R) (k : nat) :
  newton_iterate e M (newton_map e M E0) k = newton_iterate e M E0 (S k).
Proof.
  induction k as [|k IH]; simpl; [reflexivity|]. rewrite IH. reflexivity.
Qed.

(** The loop on a receiver whose eccentricity is in [0, 1): the
    divisor [1 - e cos E] is never zero there. *)
Section KeplerLoop.

Variable s : Satellite.
Variables M tol : R.
Hypothesis He : 0 <= Q2R (eccentricity s) < 1.

Lemma kepler_loop_S (E0 : R) (n : nat) :
  kepler_loop (S n) E0 M tol s =
  let E_new := newton_map (Q2R (eccentricity s)) M E0 in
  if Rlt_dec (Rabs (E_new - E0)) tol then (s, ok E_new)
  else kepler_loop n E_new M tol s.
Proof.
  cbn [kepler_loop]. unfold mbind at 1. cbn [attr ok].
  unfold mbind at 1. cbn [lift]. rewrite newton_update_ok by exact He.
  cbn [ok]. cbv zeta.
  destruct (Rlt_dec _ tol); reflexivity.
Qed.

Lemma kepler_loop_outcome :
  forall n E0, exists E,
    kepler_loop n E0 M tol s = (s, ok E) /\
    loop_outcome (Q2R (eccentricity s)) M tol E0 n E.
Proof.
  induction n as [|n IH]; intros E0.
  - exists E0. split; [reflexivity|]. right. split; [lia|reflexivity].
  - rewrite kepler_loop_S. cbv zeta.
    set (e := Q2R (eccentricity s)) in *.
    destruct (Rlt_dec (Rabs (newton_map e M E0 - E0)) tol) as [Hc|Hc].
    + exists (newton_map e M E0). split; [reflexivity|]. left.
      exists O. repeat split; [lia|exact Hc|lia].
    + destruct (IH (newton_map e M E0)) as [E [Hrun Hout]].
      exists E. split; [exact Hrun|].
      destruct Hout as [[k [Hk [Hck [Hmin HE]]]]|[Hnone HE]].
      * left. exists (S k). split; [lia|]. split.
        { unfold converged_at in *. rewrite !newton_iterate_shift in Hck. exact Hck. }
        split.
        { intros [|j] Hj.
          - exact Hc.
          - unfold converged_at. intros Hcj. apply (Hmin j); [lia|].
            unfold converged_at. rewrite !newton_iterate_shift. exact Hcj. }
        rewrite HE. apply newton_iterate_shift.
      * right. split.
        { intros [|j] Hj.
          - exact Hc.
          - intros Hcj. apply (Hnone j); [lia|].
            unfold converged_at. rewrite !newton_iterate_shift. exact Hcj. }
        rewrite HE. apply newton_iterate_shift.
Qed.

End KeplerLoop.

Lemma solve_kepler_equation_outcome (s : Satellite) (M tol : R) (cap : Z) :
  0 <= Q2R (eccentricity s) < 1 ->
  exists E,
    solve_kepler_equation M tol cap s = (s, ok E) /\
    loop_outcome (Q2R (eccentricity s)) (py_mod M (2 * PI)) tol
      (initial_guess s M) (Z.to_nat cap) E.
Proof.
  intros He. unfold solve_kepler_equation, initial_guess.
  unfold mbind at 1. cbn [attr ok].
  apply kepler_loop_outcome. exact He.
Qed.

(** ** Geometry of the position *)

Lemma rotation_keeps_norm (x y s c : R) :
  s * s + c * c = 1 ->
  (x * c - y * s) ^ 2 + (x * s + y * c) ^ 2 = x ^ 2 + y ^ 2.
Proof.
  intros H.
  replace ((x * c - y * s) ^ 2 + (x * s + y * c) ^ 2)
    with ((x ^ 2 + y ^ 2) * (s * s + c * c)) by ring.
  rewrite H. ring.
Qed.

Lemma sin_cos_unit (x : R) : sin x * sin x + cos x * cos x = 1.
Proof. exact (sin2_cos2 x). Qed.

Lemma radius_denominator_pos (e nu : R) : 0 <= e < 1 -> 0 < 1 + e * cos nu.
Proof. intros He. pose proof (COS_bound nu). nra. Qed.

Lemma position_from_eccentric_anomaly_eq (s : Satellite) (E : R) :
  valid_elements s ->
  position_from_eccentric_anomaly E s =
  (s, ok (eci_position s (true_anomaly s E))).
Proof.
  intros V.
  pose proof (Q2R_eccentricity_bounds s V) as He.
  unfold position_from_eccentric_anomaly.
  unfold mbind at 1. cbn [attr ok].
  assert (Hnu : (if Qltb (eccentricity s) 1e-10 then mret E
            else
             q <- lift (py_div (1 + Q2R (eccentricity s)) (1 - Q2R (eccentricity s)));;
             mret (2 * arctan2 (sqrt q * sin (E / 2)) (cos (E / 2)))) s
          = (s, ok (true_anomaly s E))).
  { unfold true_anomaly. destruct (Qltb (eccentricity s) 1e-10).
    - reflexivity.
    - unfold mbind, lift. rewrite py_div_ok by lra. reflexivity. }
  cbv zeta. rewrite (mbind_ok _ _ _ _ _ Hnu).
  set (nu := true_anomaly s E) in *.
  unfold mbind at 1. cbn [attr ok].
  unfold mbind at 1. cbn [attr ok].
  unfold mbind at 1. cbn [lift].
  rewrite py_div_ok
    by (pose proof (radius_denominator_pos _ nu He); lra).
  reflexivity.
Qed.

Lemma eci_position_norm (s : Satellite) (nu : R) :
  valid_elements s -> norm3 (eci_position s nu) = orbital_radius s nu.
Proof.
  intros V.
  pose proof (Q2R_eccentricity_bounds s V) as He.
  pose proof (Q2R_semi_major_axis_pos s V) as Ha.
  assert (Hr : 0 <= orbital_radius s nu).
  { unfold orbital_radius. cbv zeta.
    pose proof (radius_denominator_pos _ nu He) as Hd.
    apply Rlt_le, Rdiv_lt_0_compat; [|exact Hd].
    apply Rmult_lt_0_compat; [exact Ha|]. nra. }
  unfold eci_position, norm3. cbv zeta.
  set (r := orbital_radius s nu) in *.
  set (w := radians (Q2R (argument_of_perigee s))).
  set (i := radians (Q2R (inclination s))).
  set (O := radians (Q2R (raan s))).
  rewrite rotation_keeps_norm by apply sin_cos_unit.
  replace ((r * cos nu * cos w - r * sin nu * sin w) ^ 2 +
           ((r * cos nu * sin w + r * sin nu * cos w) * cos i - 0 * sin i) ^ 2 +
           ((r * cos nu * sin w + r * sin nu * cos w) * sin i + 0 * cos i) ^ 2)
    with ((r * cos nu * cos w - r * sin nu * sin w) ^ 2 +
          (r * cos nu * sin w + r * sin nu * cos w) ^ 2 *
            (sin i * sin i + cos i * cos i)) by ring.
  rewrite sin_cos_unit, Rmult_1_r.
  rewrite rotation_keeps_norm by apply sin_cos_unit.
  replace ((r * cos nu) ^ 2 + (r * sin nu) ^ 2)
    with (r ^ 2 * (sin nu * sin nu + cos nu * cos nu)) by ring.
  rewrite sin_cos_unit, Rmult_1_r.
  replace (r ^ 2) with (Rsqr r) by (unfold Rsqr; ring).
  apply sqrt_Rsqr. exact Hr.
Qed.

Lemma position_from_eccentric_anomaly_ok (s : Satellite) (E : R) :
  valid_elements s ->
  exists p,
    position_from_eccentric_anomaly E s = (s, ok p) /\
    norm3 p = orbital_radius s (true_anomaly s E).
Proof.
  intros V. exists (eci_position s (true_anomaly s E)). split.
  - apply position_from_eccentric_anomaly_eq, V.
  - apply eci_position_norm, V.
Qed.

Lemma mu_pos : 0 < mu.
Proof. unfold mu. lra. Qed.

Lemma mean_anomaly_at_time_ok (s : Satellite) (t : R) :
  valid_elements s ->
  mean_anomaly_at_time t s =
  (s, ok (radians (Q2R (mean_anomaly s)) + mean_motion s * t)).
Proof.
  intros V. pose proof (Q2R_semi_major_axis_pos s V) as Ha.
  unfold mean_anomaly_at_time, mean_motion.
  unfold mbind at 1. cbn [attr ok].
  unfold mbind at 1. cbn [lift].
  rewrite py_div_ok by (apply Rgt_not_eq, pow_lt; exact Ha).
  reflexivity.
Qed.

(** For a valid element set and a time that is not negative,
    [calculate_position] returns a position: the one of the eccentric
    anomaly the solver returns. *)
Lemma calculate_position_ok (s : Satellite) (t : R) :
  valid_elements s -> 0 <= t ->
  exists E p,
    solve_kepler_equation
      (radians (Q2R (mean_anomaly s)) + mean_motion s * t)
      default_tolerance default_max_iterations s = (s, ok E) /\
    position_from_eccentric_anomaly E s = (s, ok p) /\
    calculate_position t s = (s, ok p) /\
    norm3 p = orbital_radius s (true_anomaly s E).
Proof.
  intros V Ht.
  pose proof (Q2R_eccentricity_bounds s V) as He.
  destruct (solve_kepler_equation_outcome s
              (radians (Q2R (mean_anomaly s)) + mean_motion s * t)
              default_tolerance default_max_iterations He) as [E [HE _]].
  destruct (position_from_eccentric_anomaly_ok s E V) as [p [Hp Hn]].
  exists E, p. split; [exact HE|]. split; [exact Hp|]. split; [|exact Hn].
  unfold calculate_position.
  destruct (Rlt_dec t 0) as [Hneg|_]; [lra|].
  rewrite (mbind_ok _ _ _ _ _ (mean_anomaly_at_time_ok s t V)).
  rewrite (mbind_ok _ _ _ _ _ HE). exact Hp.
Qed.

Lemma calculate_position_negative (s : Satellite) (t : R) :
  t < 0 ->
  calculate_position t s =
  (s, raise (ValueError "Time delta cannot be negative")).
Proof.
  intros Ht. unfold calculate_position.
  destruct (Rlt_dec t 0); [reflexivity|contradiction].
Qed.

(** C3.  For a valid element set, [calculate_position t] raises
    [ValueError] exactly when [t] is negative; on a negative time
    [calculate_velocity] fails with the very exception its call of
    [calculate_position] raises; and both calls give the element set
    back as they got it. *)
Theorem negative_time_rejected (s : Satellite) (t : R)
    (V : valid_elements s) :
  (is_ValueError (snd (calculate_position t s)) <-> t < 0) /\
  (t < 0 ->
     exists e, e = ValueError "Time delta cannot be negative" /\
       snd (calculate_position t s) = raise e /\
       snd (calculate_velocity (VSat s) t) = raise e) /\
  fst (calculate_position t s) = s /\
  fst (calculate_velocity (VSat s) t) = VSat s.
Proof.
  split; [|split; [|split]].
  - split.
    + intros [msg Hmsg]. destruct (Rlt_dec t 0) as [H|H]; [exact H|].
      apply Rnot_lt_le in H.
      destruct (calculate_position_ok s t V H) as [E [p [_ [_ [Hp _]]]]].
      rewrite Hp in Hmsg. discriminate.
    + intros H. rewrite calculate_position_negative by exact H.
      eexists; reflexivity.
  - intros H. unfold calculate_velocity, on_satellite. cbn [as_satellite].
    rewrite (mbind_raise _ _ _ _ _ (calculate_position_negative s t H)).
    rewrite calculate_position_negative by exact H.
    eexists. split; [reflexivity|]. split; reflexivity.
  - apply calculate_position_read_only.
  - unfold calculate_velocity, on_satellite. cbn [as_satellite].
    match goal with |- fst (let (_, _) := ?m s in _) = _ =>
      assert (Hro : read_only m) by read_only_tac;
      specialize (Hro s); destruct (m s) as [s' r] end.
    simpl in *. congruence.
Qed.



Lemma calculate_orbital_period_ok (s : Satellite) :
  valid_elements s ->
  calculate_orbital_period (VSat s) =
  (VSat s, ok (2 * PI * sqrt (Q2R (semi_major_axis s) ^ 3 / mu))).
Proof.
  intros V. unfold calculate_orbital_period, on_satellite.
  cbn [as_satellite]. unfold mbind at 1. cbn [attr ok].
  unfold mbind at 1. cbn [lift].
  rewrite py_div_ok by (pose proof mu_pos; lra).
  reflexivity.
Qed.



(** C4.  With an eccentricity in [0, 1), [solve_kepler_equation]
    returns a value for every mean anomaly, tolerance and iteration
    cap, and leaves the receiver unchanged.  If pass [k] is the first
    whose successive iterates are closer than the tolerance, the value
    is the iterate [k + 1] that pass computed; if no pass within the
    cap is, the value is the last iterate computed (the initial guess
    when the cap is not positive). *)
Theorem solver_never_raises (s : Satellite) (M tol : R) (cap : Z)
    (He : (0 <= eccentricity s /\ eccentricity s < 1)%Q) :
  let e := Q2R (eccentricity s) in
  let M' := py_mod M (2 * PI) in
  let E0 := initial_guess s M in
  exists E,
    solve_kepler_equation M tol cap s = (s, ok E) /\
    (forall k, (k < Z.to_nat cap)%nat ->
       converged_at e M' tol E0 k ->
       (forall j, (j < k)%nat -> ~ converged_at e M' tol E0 j) ->
       E = newton_iterate e M' E0 (S k)) /\
    ((forall k, (k < Z.to_nat cap)%nat -> ~ converged_at e M' tol E0 k) ->
       E = newton_iterate e M' E0 (Z.to_nat cap)).
Proof.
  intros e M' E0.
  assert (He' : 0 <= e < 1).
  { unfold e. destruct He as [H0 H1].
    apply Qle_Rle in H0. apply Qlt_Rlt in H1.
    rewrite RMicromega.Q2R_0 in H0. rewrite RMicromega.Q2R_1 in H1. lra. }
  destruct (solve_kepler_equation_outcome s M tol cap He') as [E [HE Hout]].
  exists E. split; [exact HE|].
  fold e M' E0 in Hout.
  destruct Hout as [[k [Hk [Hck [Hmin HEk]]]]|[Hnone HEn]].
  - split.
    + intros k' Hk' Hck' Hmin'.
      destruct (Nat.lt_trichotomy k k') as [Hlt|[Heq|Hgt]].
      * exfalso. exact (Hmin' k Hlt Hck).
      * subst k'. exact HEk.
      * exfalso. exact (Hmin k' Hgt Hck').
    + intros Hnone. exfalso. exact (Hnone k Hk Hck).
  - split.
    + intros k Hk Hck _. exfalso. exact (Hnone k Hk Hck).
    + intros _. exact HEn.
Qed.

(** ** Residual of a converged solve *)

Lemma sin_abs_le (x : R) : Rabs (sin x) <= Rabs x.
Proof.
  assert (Hpos : forall y, 0 <= y -> Rabs (sin y) <= y).
  { intros y Hy. apply Rabs_le. pose proof (SIN_bound y) as Hb.
    destruct (Rle_lt_dec 1 y) as [H1|H1]; [lra|].
    destruct (Req_dec y 0) as [->|Hn]; [rewrite sin_0; lra|].
    assert (H0 : 0 < y) by lra.
    pose proof (sin_lt_x y H0).
    pose proof (sin_gt_0 y H0) as Hs.
    assert (y < PI) by (pose proof PI2_1; lra).
    specialize (Hs H2). lra. }
  destruct (Rle_lt_dec 0 x) as [H|H].
  - rewrite (Rabs_pos_eq x H). apply Hpos, H.
  - rewrite (Rabs_left x H). replace (sin x) with (- sin (- x))
      by (rewrite sin_neg; ring).
    rewrite Rabs_Ropp. apply Hpos. lra.
Qed.

Lemma sin_lipschitz (a b : R) : Rabs (sin a - sin b) <= Rabs (a - b).
Proof.
  rewrite form4. rewrite !Rabs_mult.
  pose proof (COS_bound ((a + b) / 2)) as Hc.
  assert (Hc' : Rabs (cos ((a + b) / 2)) <= 1) by (apply Rabs_le; lra).
  pose proof (sin_abs_le ((a - b) / 2)) as Hs.
  replace (Rabs ((a - b) / 2)) with (Rabs (a - b) / 2) in Hs.
  2: { unfold Rdiv. rewrite Rabs_mult. f_equal.
       rewrite Rabs_pos_eq; lra. }
  rewrite (Rabs_pos_eq 2) by lra.
  pose proof (Rabs_pos (cos ((a + b) / 2))).
  pose proof (Rabs_pos (sin ((a - b) / 2))).
  pose proof (Rabs_pos (a - b)).
  nra.
Qed.

(** After a Newton step of length [d] the residual is at most
    [2 (1 + e) d]. *)
Lemma newton_step_residual (e M E : R) :
  0 <= e < 1 ->
  Rabs (kepler_residual e M (newton_map e M E)) <=
  2 * (1 + e) * Rabs (newton_map e M E - E).
Proof.
  intros He.
  pose proof (kepler_denominator_pos e E He) as Hd.
  pose proof (COS_bound E) as Hc.
  set (E' := newton_map e M E).
  assert (Hf : kepler_residual e M E = (1 - e * cos E) * (E - E')).
  { unfold E', newton_map, kepler_residual. field. lra. }
  assert (Hsplit : kepler_residual e M E' =
            (E' - E) - e * (sin E' - sin E) + kepler_residual e M E).
  { unfold kepler_residual. ring. }
  rewrite Hsplit, Hf.
  pose proof (sin_lipschitz E' E) as Hl.
  set (d := Rabs (E' - E)) in *.
  assert (Hd0 : 0 <= d) by apply Rabs_pos.
  assert (H1 : Rabs (E' - E - e * (sin E' - sin E)) <= (1 + e) * d).
  { eapply Rle_trans; [apply Rabs_triang|].
    rewrite Rabs_Ropp, Rabs_mult, (Rabs_pos_eq e) by lra.
    fold d. pose proof (Rabs_pos (sin E' - sin E)).
    assert (e * Rabs (sin E' - sin E) <= e * d)
      by (apply Rmult_le_compat_l; lra).
    lra. }
  assert (H2 : Rabs ((1 - e * cos E) * (E - E')) <= (1 + e) * d).
  { rewrite Rabs_mult, (Rabs_pos_eq (1 - e * cos E)) by lra.
    rewrite (Rabs_minus_sym E E'). fold d.
    apply Rmult_le_compat_r; [exact Hd0|]. nra. }
  eapply Rle_trans; [apply Rabs_triang|]. lra.
Qed.

Lemma py_mod_range (x y : R) : 0 < y -> 0 <= py_mod x y < y.
Proof.
  intros Hy. unfold py_mod.
  destruct (base_Int_part (x / y)) as [H1 H2].
  assert (Hx : x = x / y * y) by (field; lra).
  set (q := x / y) in *. set (k := IZR (Int_part q)) in *.
  split.
  - assert (k * y <= q * y) by (apply Rmult_le_compat_r; lra). lra.
  - assert (q * y < (k + 1) * y) by (apply Rmult_lt_compat_r; lra). lra.
Qed.


(** ** Concrete runs *)

Ltac by_computation := repeat split; (reflexivity || discriminate).

Ltac valid_by_computation := constructor; simpl; by_computation.

Lemma sample_satellite_valid : valid_elements sample_satellite.
Proof. valid_by_computation. Qed.


Lemma py_mod_shift (x y : R) (k : Z) :
  0 < y -> IZR k * y <= x < (IZR k + 1) * y -> py_mod x y = x - IZR k * y.
Proof.
  intros Hy [H1 H2]. unfold py_mod.
  rewrite <- (Int_part_spec (x / y) k); [reflexivity|].
  split.
  - apply Rmult_lt_reg_r with y; [exact Hy|].
    replace ((x / y - 1) * y) with (x - y) by (field; lra). lra.
  - apply Rmult_le_reg_r with y; [exact Hy|].
    replace (x / y * y) with x by (field; lra). lra.
Qed.

Lemma two_pi_bounds : 4 < 2 * PI <= 8.
Proof. pose proof PI2_1. pose proof PI_4. lra. Qed.






Lemma solver_never_raises_witness :
  exists E,
    solve_kepler_equation 0 default_tolerance default_max_iterations
      sample_satellite = (sample_satellite, ok E).
Proof.
  destruct (solver_never_raises sample_satellite 0 default_tolerance
              default_max_iterations) as [E [HE _]].
  - by_computation.
  - exists E. exact HE.
Defined.

Lemma negative_time_rejected_witness :
  is_ValueError (snd (calculate_position (-100) sample_satellite)) /\
  fst (calculate_position (-100) sample_satellite) = sample_satellite /\
  fst (calculate_velocity (VSat sample_satellite) (-100))
    = VSat sample_satellite.
Proof.
  destruct (negative_time_rejected sample_satellite (-100)
              sample_satellite_valid) as [Hiff [_ [H1 H2]]].
  split; [apply Hiff; lra|]. split; assumption.
Defined.


Local Open Scope Q_scope.

(** ** Time sampling *)


















Local Open Scope R_scope.

(** ** A solve that never converges *)

Lemma py_mod_two_pi : py_mod (2 * PI) (2 * PI) = 0.
Proof.
  pose proof two_pi_bounds.
  rewrite (py_mod_shift (2 * PI) (2 * PI) 1); lra.
Qed.

Lemma newton_map_half_plus : newton_map (1 / 2) 0 (2 * PI) = - (2 * PI).
Proof. unfold newton_map. rewrite sin_2PI, cos_2PI. field. Qed.

Lemma newton_map_half_minus : newton_map (1 / 2) 0 (- (2 * PI)) = 2 * PI.
Proof.
  unfold newton_map. rewrite sin_neg, cos_neg, sin_2PI, cos_2PI. field.
Qed.

Lemma newton_iterate_half (k : nat) :
  newton_iterate (1 / 2) 0 (2 * PI) k =
  if Nat.even k then 2 * PI else - (2 * PI).
Proof.
  induction k as [|k IH]; [reflexivity|].
  cbn [newton_iterate]. rewrite IH, Nat.even_succ, <- Nat.negb_even.
  destruct (Nat.even k); simpl.
  - apply newton_map_half_plus.
  - apply newton_map_half_minus.
Qed.

(** With eccentricity 1/2 and mean anomaly [2 pi] the iteration
    alternates between [2 pi] and [-2 pi]: no pass passes the
    convergence test, and after the 100 passes the solver returns
    [2 pi], whose residual against the normalized anomaly 0 is [2 pi]. *)
Lemma solver_can_cycle :
  let e := Q2R (eccentricity half_sat) in
  let M' := py_mod (2 * PI) (2 * PI) in
  (0 <= eccentricity half_sat /\ eccentricity half_sat <= 0.9)%Q /\
  (forall k, ~ converged_at e M' default_tolerance
                 (initial_guess half_sat (2 * PI)) k) /\
  solve_kepler_equation (2 * PI) default_tolerance default_max_iterations
    half_sat = (half_sat, ok (2 * PI)) /\
  ~ Rabs (2 * PI - e * sin (2 * PI) - M') < 1e-8.
Proof.
  intros e M'.
  assert (He : e = 1 / 2) by (unfold e, Q2R; simpl; lra).
  assert (HM : M' = 0) by apply py_mod_two_pi.
  assert (HE0 : initial_guess half_sat (2 * PI) = 2 * PI) by reflexivity.
  pose proof two_pi_bounds as Hpi.
  assert (Hnone : forall k, ~ converged_at e M' default_tolerance
                               (initial_guess half_sat (2 * PI)) k).
  { intros k. unfold converged_at. rewrite He, HM, HE0.
    rewrite !newton_iterate_half, Nat.even_succ, <- Nat.negb_even.
    unfold default_tolerance.
    destruct (Nat.even k); simpl.
    - replace (- (2 * PI) - 2 * PI) with (- (4 * PI)) by ring.
      rewrite Rabs_Ropp, Rabs_pos_eq; lra.
    - replace (2 * PI - - (2 * PI)) with (4 * PI) by ring.
      rewrite Rabs_pos_eq; lra. }
  split; [by_computation|]. split; [exact Hnone|]. split.
  - destruct (solve_kepler_equation_outcome half_sat (2 * PI)
                default_tolerance default_max_iterations)
      as [E [HE Hout]]; [fold e; lra|].
    rewrite HE. fold e M' in Hout.
    destruct Hout as [[k [_ [Hck _]]]|[_ HEn]].
    + exfalso. exact (Hnone k Hck).
    + rewrite HEn, He, HM, HE0, newton_iterate_half. reflexivity.
  - rewrite He, HM, sin_2PI.
    replace (2 * PI - 1 / 2 * 0 - 0) with (2 * PI) by ring.
    rewrite Rabs_pos_eq; lra.
Qed.

(** ** Periodicity, where it is exact *)


Lemma period_advances_anomaly (s : Satellite) :
  valid_elements s -> mean_motion s * orbital_period s = 2 * PI.
Proof.
  intros V. pose proof (Q2R_semi_major_axis_pos s V) as Ha.
  pose proof mu_pos as Hmu.
  unfold mean_motion, orbital_period.
  set (a3 := Q2R (semi_major_axis s) ^ 3).
  assert (Ha3 : 0 < a3) by (apply pow_lt; exact Ha).
  replace (sqrt (mu / a3) * (2 * PI * sqrt (a3 / mu)))
    with (2 * PI * (sqrt (mu / a3) * sqrt (a3 / mu))) by ring.
  rewrite <- sqrt_mult_alt
    by (apply Rlt_le, Rdiv_lt_0_compat; assumption).
  replace (mu / a3 * (a3 / mu)) with 1 by (field; lra).
  rewrite sqrt_1. ring.
Qed.


Lemma calculate_position_from_anomaly (s : Satellite) (t : R) :
  valid_elements s -> 0 <= t ->
  calculate_position t s =
  (E <- solve_kepler_equation
          (radians (Q2R (mean_anomaly s)) + mean_motion s * t)
          default_tolerance default_max_iterations ;;
   position_from_eccentric_anomaly E) s.
Proof.
  intros V Ht. unfold calculate_position.
  destruct (Rlt_dec t 0); [lra|].
  rewrite (mbind_ok _ _ _ _ _ (mean_anomaly_at_time_ok s t V)). reflexivity.
Qed.


(** ** Polynomial bounds on sine and cosine *)

Lemma cos_lower (x : R) : 1 - x ^ 2 / 2 <= cos x.
Proof.
  replace x with (2 * (x / 2)) at 2 by field.
  rewrite cos_2a_sin.
  pose proof (sin_abs_le (x / 2)) as H.
  pose proof (Rabs_pos (sin (x / 2))) as Hs.
  assert (H2 : Rabs (sin (x / 2)) * Rabs (sin (x / 2))
               <= Rabs (x / 2) * Rabs (x / 2)) by nra.
  rewrite <- !Rabs_mult in H2.
  rewrite !Rabs_pos_eq in H2 by nra.
  nra.
Qed.

Lemma cos_upper (x : R) :
  -2 <= x <= 2 -> cos x <= 1 - x ^ 2 / 2 + x ^ 4 / 24.
Proof.
  intros [H1 H2].
  destruct (pre_cos_bound x 0 H1 H2) as [_ H].
  unfold cos_approx, cos_term in H. simpl in H. lra.
Qed.

Lemma sin_lower (x : R) : 0 <= x <= 4 -> x - x ^ 3 / 6 <= sin x.
Proof.
  intros [H1 H2].
  destruct (pre_sin_bound x 0 H1 H2) as [H _].
  unfold sin_approx, sin_term in H. simpl in H. lra.
Qed.

Lemma sin_upper (x : R) : 0 <= x -> sin x <= x.
Proof.
  intros H. pose proof (sin_abs_le x) as Ha.
  rewrite (Rabs_pos_eq x H) in Ha.
  pose proof (Rle_abs (sin x)). lra.
Qed.

Lemma PI_bounds : 3.1 < PI < 3.2.
Proof.
  split.
  - assert (H : 1.55 < PI / 2).
    { apply PI2_lower_bound; [lra|].
      destruct (pre_cos_bound 1.55 1) as [H _]; [lra|lra|].
      unfold cos_approx, cos_term in H. simpl in H. lra. }
    lra.
  - assert (H : PI / 2 < 1.6).
    { destruct (Rlt_le_dec (PI / 2) 1.6) as [Hlt|Hge]; [exact Hlt|].
      exfalso.
      assert (Hc : 0 <= cos 1.6).
      { apply cos_ge_0; pose proof PI_RGT_0; lra. }
      pose proof (cos_upper 1.6 ltac:(lra)) as Hu. lra. }
    lra.
Qed.

(** ** A Newton step at eccentricity 1/2, seen from a multiple of 2 pi *)

Lemma small_angle_bounds (x x_lo x_hi : R) :
  0 <= x_lo -> x_lo <= x -> x <= x_hi -> x_hi <= 1 ->
  let w := 1 - cos x in
  let s := x - sin x in
  x_lo ^ 2 / 2 - x_hi ^ 4 / 24 <= w /\ 0 <= w /\ w <= x_hi ^ 2 / 2 /\
  0 <= s /\ s <= x_hi ^ 3 / 6.
Proof.
  intros H0 H1 H2 H3 w s. unfold w, s.
  pose proof (cos_lower x) as Hcl.
  pose proof (cos_upper x ltac:(lra)) as Hcu.
  pose proof (sin_lower x ltac:(lra)) as Hsl.
  pose proof (sin_upper x ltac:(lra)) as Hsu.
  pose proof (COS_bound x) as Hcb.
  assert (Hx2 : x_lo ^ 2 <= x ^ 2) by nra.
  assert (Hx2' : x ^ 2 <= x_hi ^ 2) by nra.
  assert (Hx3 : x ^ 3 <= x_hi ^ 3).
  { assert (0 <= x ^ 2) by nra. nra. }
  assert (Hx4 : x ^ 4 <= x_hi ^ 4).
  { replace (x ^ 4) with (x ^ 2 * x ^ 2) by ring.
    replace (x_hi ^ 4) with (x_hi ^ 2 * x_hi ^ 2) by ring.
    assert (0 <= x ^ 2) by nra. nra. }
  repeat split; lra.
Qed.

Lemma newton_shift_identity (c x delta : R) :
  sin (c + x) = sin x -> cos (c + x) = cos x ->
  (1 + (1 - cos x)) * (newton_map (1 / 2) delta (c + x) + c) =
  2 * delta + (2 * c + x) * (1 - cos x) - (x - sin x).
Proof.
  intros Hs Hc. unfold newton_map. rewrite Hs, Hc.
  pose proof (COS_bound x). field. lra.
Qed.

Section Boxes.

Variables c x delta c_lo c_hi x_lo x_hi d_lo d_hi L H : R.
Hypothesis Hx : 0 <= x_lo /\ x_lo <= x /\ x <= x_hi /\ x_hi <= 1.
Hypothesis Hc : c_lo <= c <= c_hi.
Hypothesis Hd : d_lo <= delta <= d_hi.

(** From [c + x] the step lands at [- c + y] with [y] in [[L, H]]. *)
Lemma box_plus :
  sin (c + x) = sin x -> cos (c + x) = cos x ->
  0 <= 2 * c_lo + x_lo - H -> L <= H ->
  2 * d_hi + (2 * c_hi + x_hi - H) * (x_hi ^ 2 / 2) <= H ->
  L <= 2 * d_lo + (2 * c_lo + x_lo - L) * (x_lo ^ 2 / 2 - x_hi ^ 4 / 24)
       - x_hi ^ 3 / 6 ->
  L <= newton_map (1 / 2) delta (c + x) + c <= H.
Proof.
  intros Hsin Hcos Hcoef HLH Hup Hlo.
  pose proof (newton_shift_identity c x delta Hsin Hcos) as Hid.
  destruct Hx as [Hx0 [Hx1 [Hx2 Hx3]]].
  destruct (small_angle_bounds x x_lo x_hi Hx0 Hx1 Hx2 Hx3)
    as [Hw1 [Hw0 [Hw2 [Hs0 Hs1]]]].
  set (w := 1 - cos x) in *. set (s := x - sin x) in *.
  set (y := newton_map (1 / 2) delta (c + x) + c) in *.
  set (W_lo := x_lo ^ 2 / 2 - x_hi ^ 4 / 24) in *.
  set (W_hi := x_hi ^ 2 / 2) in *.
  assert (Hpos : 0 < 1 + w) by lra.
  split.
  - apply Rmult_le_reg_l with (1 + w); [exact Hpos|]. rewrite Hid.
    assert (Hk : (2 * c_lo + x_lo - L) * W_lo <= (2 * c + x - L) * w).
    { assert (0 <= 2 * c_lo + x_lo - L) by lra.
      assert ((2 * c_lo + x_lo - L) * W_lo <= (2 * c_lo + x_lo - L) * w)
        by (apply Rmult_le_compat_l; lra).
      assert ((2 * c_lo + x_lo - L) * w <= (2 * c + x - L) * w)
        by (apply Rmult_le_compat_r; lra).
      lra. }
    lra.
  - apply Rmult_le_reg_l with (1 + w); [exact Hpos|]. rewrite Hid.
    assert (Hk : (2 * c + x - H) * w <= (2 * c_hi + x_hi - H) * W_hi).
    { assert ((2 * c + x - H) * w <= (2 * c_hi + x_hi - H) * w)
        by (apply Rmult_le_compat_r; lra).
      assert ((2 * c_hi + x_hi - H) * w <= (2 * c_hi + x_hi - H) * W_hi)
        by (apply Rmult_le_compat_l; lra).
      lra. }
    lra.
Qed.

(** From [- c + x] the step lands at [c + x'] with [x'] in [[L, H]]. *)
Lemma box_minus :
  sin (- c + x) = sin x -> cos (- c + x) = cos x ->
  0 <= 2 * c_lo - x_hi + L -> L <= H ->
  L <= 2 * d_lo - (2 * c_hi - x_lo + L) * (x_hi ^ 2 / 2) - x_hi ^ 3 / 6 ->
  2 * d_hi - (2 * c_lo - x_hi + H) * (x_lo ^ 2 / 2 - x_hi ^ 4 / 24) <= H ->
  L <= newton_map (1 / 2) delta (- c + x) - c <= H.
Proof.
  intros Hsin Hcos Hcoef HLH Hlo Hup.
  pose proof (newton_shift_identity (- c) x delta Hsin Hcos) as Hid.
  destruct Hx as [Hx0 [Hx1 [Hx2 Hx3]]].
  destruct (small_angle_bounds x x_lo x_hi Hx0 Hx1 Hx2 Hx3)
    as [Hw1 [Hw0 [Hw2 [Hs0 Hs1]]]].
  set (w := 1 - cos x) in *. set (s := x - sin x) in *.
  replace (newton_map (1 / 2) delta (- c + x) + - c)
    with (newton_map (1 / 2) delta (- c + x) - c) in Hid by ring.
  set (y := newton_map (1 / 2) delta (- c + x) - c) in *.
  set (W_lo := x_lo ^ 2 / 2 - x_hi ^ 4 / 24) in *.
  set (W_hi := x_hi ^ 2 / 2) in *.
  assert (Hpos : 0 < 1 + w) by lra.
  split.
  - apply Rmult_le_reg_l with (1 + w); [exact Hpos|]. rewrite Hid.
    assert (Hk : (2 * c - x + L) * w <= (2 * c_hi - x_lo + L) * W_hi).
    { assert ((2 * c - x + L) * w <= (2 * c_hi - x_lo + L) * w)
        by (apply Rmult_le_compat_r; lra).
      assert ((2 * c_hi - x_lo + L) * w <= (2 * c_hi - x_lo + L) * W_hi)
        by (apply Rmult_le_compat_l; lra).
      lra. }
    lra.
  - apply Rmult_le_reg_l with (1 + w); [exact Hpos|]. rewrite Hid.
    assert (Hk : (2 * c_lo - x_hi + H) * W_lo <= (2 * c - x + H) * w).
    { assert (0 <= 2 * c_lo - x_hi + H) by lra.
      assert ((2 * c_lo - x_hi + H) * W_lo <= (2 * c_lo - x_hi + H) * w)
        by (apply Rmult_le_compat_l; lra).
      assert ((2 * c_lo - x_hi + H) * w <= (2 * c - x + H) * w)
        by (apply Rmult_le_compat_r; lra).
      lra. }
    lra.
Qed.

End Boxes.

(** ** The true anomaly in closed form *)

Lemma double_atan (t : R) :
  sin (2 * atan t) = 2 * t / (1 + t ^ 2) /\
  cos (2 * atan t) = (1 - t ^ 2) / (1 + t ^ 2).
Proof.
  assert (Hpos : 0 < 1 + t ^ 2) by nra.
  assert (Hsq : sqrt (1 + t²) * sqrt (1 + t²) = 1 + t ^ 2).
  { rewrite sqrt_sqrt; unfold Rsqr; nra. }
  assert (Hne : sqrt (1 + t²) <> 0).
  { intros H0. rewrite H0 in Hsq. nra. }
  split.
  - rewrite sin_2a, sin_atan, cos_atan.
    replace (2 * (t / sqrt (1 + t²)) * (1 / sqrt (1 + t²)))
      with (2 * t / (sqrt (1 + t²) * sqrt (1 + t²))) by (field; exact Hne).
    rewrite Hsq. reflexivity.
  - rewrite cos_2a_sin, sin_atan.
    replace (1 - 2 * (t / sqrt (1 + t²)) * (t / sqrt (1 + t²)))
      with (1 - 2 * t ^ 2 / (sqrt (1 + t²) * sqrt (1 + t²)))
      by (field; exact Hne).
    rewrite Hsq. field. lra.
Qed.

Lemma double_arctan2 (y x : R) :
  x <> 0 \/ y <> 0 ->
  sin (2 * arctan2 y x) = 2 * x * y / (x ^ 2 + y ^ 2) /\
  cos (2 * arctan2 y x) = (x ^ 2 - y ^ 2) / (x ^ 2 + y ^ 2).
Proof.
  intros Hxy.
  assert (Hn : 0 < x ^ 2 + y ^ 2).
  { destruct Hxy as [H|H]; nra. }
  assert (Hquot : x <> 0 ->
     2 * (y / x) / (1 + (y / x) ^ 2) = 2 * x * y / (x ^ 2 + y ^ 2) /\
     (1 - (y / x) ^ 2) / (1 + (y / x) ^ 2)
       = (x ^ 2 - y ^ 2) / (x ^ 2 + y ^ 2)).
  { intros Hx. split; field; split; try lra; nra. }
  destruct (double_atan (y / x)) as [Hs Hc].
  unfold arctan2.
  destruct (Rlt_dec 0 x) as [Hx|Hx].
  - destruct Hquot as [Q1 Q2]; [lra|]. rewrite Hs, Hc. split; assumption.
  - destruct (Rlt_dec x 0) as [Hx'|Hx'].
    + destruct Hquot as [Q1 Q2]; [lra|].
      destruct (Rle_dec 0 y) as [Hy|Hy].
      * replace (2 * (atan (y / x) + PI)) with (2 * atan (y / x) + 2 * PI)
          by ring.
        rewrite sin_plus, cos_plus, sin_2PI, cos_2PI, Hs, Hc.
        split; [rewrite <- Q1|rewrite <- Q2]; ring.
      * replace (2 * (atan (y / x) - PI)) with (2 * atan (y / x) - 2 * PI)
          by ring.
        rewrite sin_minus, cos_minus, sin_2PI, cos_2PI, Hs, Hc.
        split; [rewrite <- Q1|rewrite <- Q2]; ring.
    + assert (Hx0 : x = 0) by lra. subst x.
      assert (Hy0 : y <> 0) by (destruct Hxy; [lra|assumption]).
      destruct (Rlt_dec 0 y) as [Hy|Hy].
      * replace (2 * (PI / 2)) with PI by field.
        rewrite sin_PI, cos_PI. split; field; lra.
      * destruct (Rlt_dec y 0) as [Hy'|Hy']; [|lra].
        replace (2 * - (PI / 2)) with (- PI) by field.
        rewrite sin_neg, cos_neg, sin_PI, cos_PI. split; field; lra.
Qed.

Lemma true_anomaly_closed_form (e E : R) :
  0 <= e < 1 ->
  let S := sqrt ((1 + e) / (1 - e)) in
  let nu := 2 * arctan2 (S * sin (E / 2)) (cos (E / 2)) in
  cos nu = (cos E - e) / (1 - e * cos E) /\
  sin nu = S * (1 - e) * sin E / (1 - e * cos E).
Proof.
  intros He S nu.
  assert (HS2 : S * S * (1 - e) = 1 + e).
  { unfold S. rewrite sqrt_sqrt.
    - field. lra.
    - apply Rlt_le, Rdiv_lt_0_compat; lra. }
  assert (HS0 : 0 < S).
  { unfold S. apply sqrt_lt_R0, Rdiv_lt_0_compat; lra. }
  set (c := cos (E / 2)). set (s := sin (E / 2)).
  assert (Hcs : s * s + c * c = 1) by apply sin_cos_unit.
  assert (HcE : cos E = c * c - s * s).
  { replace E with (2 * (E / 2)) at 1 by field. apply cos_2a. }
  assert (HsE : sin E = 2 * s * c).
  { replace E with (2 * (E / 2)) at 1 by field. apply sin_2a. }
  pose proof (kepler_denominator_pos e E He) as Hden.
  assert (HD : (c ^ 2 + (S * s) ^ 2) * (1 - e) = 1 - e * cos E).
  { rewrite HcE.
    replace ((c ^ 2 + (S * s) ^ 2) * (1 - e))
      with (c * c * (1 - e) + s * s * (S * S * (1 - e))) by ring.
    rewrite HS2.
    replace (1 - e * (c * c - s * s))
      with ((s * s + c * c) - e * (c * c - s * s)) by (rewrite Hcs; ring).
    ring. }
  assert (HN : (c ^ 2 - (S * s) ^ 2) * (1 - e) = cos E - e).
  { rewrite HcE.
    replace ((c ^ 2 - (S * s) ^ 2) * (1 - e))
      with (c * c * (1 - e) - s * s * (S * S * (1 - e))) by ring.
    rewrite HS2.
    replace (c * c - s * s - e)
      with (c * c - s * s - e * (s * s + c * c)) by (rewrite Hcs; ring).
    ring. }
  assert (Hnz : c <> 0 \/ S * s <> 0).
  { destruct (Req_dec c 0) as [Hc0|Hc0]; [right|left; exact Hc0].
    rewrite Hc0 in Hcs. assert (s <> 0) by nra. nra. }
  destruct (double_arctan2 (S * s) c Hnz) as [Hsin Hcos].
  unfold nu. fold c s.
  assert (HDpos : c ^ 2 + (S * s) ^ 2 <> 0).
  { intros H0. rewrite H0 in HD. lra. }
  split.
  - rewrite Hcos, <- HN, <- HD. field. split; [lra|exact HDpos].
  - rewrite Hsin, HsE, <- HD. field. split; [lra|exact HDpos].
Qed.

(** Radius and perifocal coordinates from the eccentric anomaly. *)
Lemma perifocal_closed_form (a e E : R) :
  0 <= e < 1 ->
  let S := sqrt ((1 + e) / (1 - e)) in
  let nu := 2 * arctan2 (S * sin (E / 2)) (cos (E / 2)) in
  let r := a * (1 - e ^ 2) / (1 + e * cos nu) in
  r = a * (1 - e * cos E) /\
  r * cos nu = a * (cos E - e) /\
  r * sin nu = a * (S * (1 - e)) * sin E.
Proof.
  intros He S nu r.
  destruct (true_anomaly_closed_form e E He) as [Hc Hs].
  fold S nu in Hc, Hs.
  pose proof (kepler_denominator_pos e E He) as Hden.
  assert (Hd : 1 + e * cos nu = (1 - e ^ 2) / (1 - e * cos E)).
  { rewrite Hc. field. lra. }
  assert (Hr : r = a * (1 - e * cos E)).
  { unfold r. rewrite Hd. field. split; [lra|nra]. }
  split; [exact Hr|]. rewrite Hr, Hc, Hs. split; field; lra.
Qed.

(** ** The two-cycle of the iteration at eccentricity 1/2 *)

Lemma sin_shift_plus (k : nat) (x : R) : sin (2 * INR k * PI + x) = sin x.
Proof. rewrite Rplus_comm. apply sin_period. Qed.

Lemma cos_shift_plus (k : nat) (x : R) : cos (2 * INR k * PI + x) = cos x.
Proof. rewrite Rplus_comm. apply cos_period. Qed.

Lemma sin_shift_minus (k : nat) (x : R) :
  sin (- (2 * INR k * PI) + x) = sin x.
Proof.
  rewrite <- (sin_period (- (2 * INR k * PI) + x) k). f_equal. ring.
Qed.

Lemma cos_shift_minus (k : nat) (x : R) :
  cos (- (2 * INR k * PI) + x) = cos x.
Proof.
  rewrite <- (cos_period (- (2 * INR k * PI) + x) k). f_equal. ring.
Qed.

Section Cycle.

Variable s : Satellite.
Hypothesis He : Q2R (eccentricity s) = 1 / 2.
Variable k : nat.
Variables X_lo X_hi Y_lo Y_hi X'_lo X'_hi : R.

Let c := 2 * INR k * PI.
Let delta := PI / 360.
Let N := newton_map (1 / 2) delta.

Hypothesis Hplus :
  forall x, X_lo <= x <= X_hi -> Y_lo <= N (c + x) + c <= Y_hi.
Hypothesis Hminus :
  forall y, Y_lo <= y <= Y_hi -> X'_lo <= N (- c + y) - c <= X'_hi.
Hypothesis Hsub : X_lo <= X'_lo /\ X'_hi <= X_hi.
Hypothesis Hgap : 1 <= 2 * c + X_lo - Y_hi.

Lemma cycle_two_passes (n : nat) (x : R) :
  X_lo <= x <= X_hi ->
  exists x',
    X'_lo <= x' <= X'_hi /\
    kepler_loop (S (S n)) (c + x) delta default_tolerance s =
    kepler_loop n (c + x') delta default_tolerance s.
Proof.
  intros Hx.
  assert (Hin : 0 <= Q2R (eccentricity s) < 1) by (rewrite He; lra).
  pose proof (Hplus x Hx) as Hy.
  set (y := N (c + x) + c) in *.
  pose proof (Hminus y Hy) as Hx'.
  set (x' := N (- c + y) - c) in *.
  exists x'. split; [exact Hx'|].
  rewrite (kepler_loop_S s delta default_tolerance Hin). cbv zeta.
  rewrite He. fold N.
  replace (N (c + x)) with (- c + y) by (unfold y; ring).
  destruct (Rlt_dec (Rabs (- c + y - (c + x))) default_tolerance) as [Hc|_].
  { exfalso. unfold default_tolerance in Hc.
    rewrite Rabs_left in Hc by lra. lra. }
  rewrite (kepler_loop_S s delta default_tolerance Hin). cbv zeta.
  rewrite He. fold N.
  replace (N (- c + y)) with (c + x') by (unfold x'; ring).
  destruct (Rlt_dec (Rabs (c + x' - (- c + y))) default_tolerance) as [Hc|_].
  { exfalso. unfold default_tolerance in Hc.
    rewrite Rabs_pos_eq in Hc by lra. lra. }
  reflexivity.
Qed.

Lemma cycle_loop (m : nat) :
  forall x, X_lo <= x <= X_hi ->
  exists x',
    kepler_loop (2 * m) (c + x) delta default_tolerance s = (s, ok (c + x')) /\
    X_lo <= x' <= X_hi /\
    (X'_lo <= x <= X'_hi \/ m <> O -> X'_lo <= x' <= X'_hi).
Proof.
  induction m as [|m IH]; intros x Hx.
  - exists x. split; [reflexivity|]. split; [exact Hx|].
    intros [H|H]; [exact H|contradiction].
  - replace (2 * S m)%nat with (S (S (2 * m))) by lia.
    destruct (cycle_two_passes (2 * m) x Hx) as [x1 [Hx1 Hrun]].
    rewrite Hrun.
    destruct (IH x1) as [x' [Hrun' [HX HX']]]; [lra|].
    exists x'. split; [exact Hrun'|]. split; [exact HX|].
    intros _. apply HX'. left. exact Hx1.
Qed.

End Cycle.

Lemma cycle_sat_valid : valid_elements cycle_sat.
Proof. valid_by_computation. Qed.

Lemma cycle_sat_eccentricity : Q2R (eccentricity cycle_sat) = 1 / 2.
Proof. unfold Q2R; simpl; lra. Qed.

Lemma delta_bounds : 3.1 / 360 <= PI / 360 <= 3.2 / 360.
Proof. pose proof PI_bounds. lra. Qed.

(** First period: around [2 pi]. *)
Lemma cycle_boxes_1 :
  let c := 2 * INR 1 * PI in
  let N := newton_map (1 / 2) (PI / 360) in
  (forall x, 0.0086 <= x <= 0.0178 -> 0.0176 <= N (c + x) + c <= 0.0199) /\
  (forall y, 0.0176 <= y <= 0.0199 -> 0.0146 <= N (- c + y) - c <= 0.0159).
Proof.
  intros c N. pose proof PI_bounds as Hpi. pose proof delta_bounds as Hd.
  assert (Hc : 2 * 3.1 <= c <= 2 * 3.2) by (unfold c; simpl; lra).
  split.
  - intros x Hx. unfold N.
    apply (box_plus c x (PI / 360) (2 * 3.1) (2 * 3.2) 0.0086 0.0178
             (3.1 / 360) (3.2 / 360)); try lra.
    + apply sin_shift_plus.
    + apply cos_shift_plus.
  - intros y Hy. unfold N.
    apply (box_minus c y (PI / 360) (2 * 3.1) (2 * 3.2) 0.0176 0.0199
             (3.1 / 360) (3.2 / 360)); try lra.
    + apply sin_shift_minus.
    + apply cos_shift_minus.
Qed.

(** Second period: around [4 pi]. *)
Lemma cycle_boxes_2 :
  let c := 2 * INR 2 * PI in
  let N := newton_map (1 / 2) (PI / 360) in
  (forall x, 0.0086 <= x <= 0.0178 -> 0.0181 <= N (c + x) + c <= 0.0219) /\
  (forall y, 0.0181 <= y <= 0.0219 -> 0.0110 <= N (- c + y) - c <= 0.0138).
Proof.
  intros c N. pose proof PI_bounds as Hpi. pose proof delta_bounds as Hd.
  assert (Hc : 4 * 3.1 <= c <= 4 * 3.2) by (unfold c; simpl; lra).
  split.
  - intros x Hx. unfold N.
    apply (box_plus c x (PI / 360) (4 * 3.1) (4 * 3.2) 0.0086 0.0178
             (3.1 / 360) (3.2 / 360)); try lra.
    + apply sin_shift_plus.
    + apply cos_shift_plus.
  - intros y Hy. unfold N.
    apply (box_minus c y (PI / 360) (4 * 3.1) (4 * 3.2) 0.0181 0.0219
             (3.1 / 360) (3.2 / 360)); try lra.
    + apply sin_shift_minus.
    + apply cos_shift_minus.
Qed.

Lemma py_mod_cycle (k : nat) :
  py_mod (2 * INR k * PI + PI / 360) (2 * PI) = PI / 360.
Proof.
  pose proof PI_bounds as Hpi.
  rewrite (py_mod_shift _ (2 * PI) (Z.of_nat k)).
  - rewrite <- INR_IZR_INZ. ring.
  - lra.
  - rewrite <- INR_IZR_INZ. split; lra.
Qed.

Lemma solve_cycle_start (k : nat) :
  solve_kepler_equation (2 * INR k * PI + PI / 360)
    default_tolerance default_max_iterations cycle_sat =
  kepler_loop 100 (2 * INR k * PI + PI / 360) (PI / 360)
    default_tolerance cycle_sat.
Proof.
  unfold solve_kepler_equation. unfold mbind at 1. cbn [attr ok].
  rewrite py_mod_cycle. reflexivity.
Qed.

Lemma solve_on_cycle_1 :
  exists x,
    solve_kepler_equation (2 * INR 1 * PI + PI / 360)
      default_tolerance default_max_iterations cycle_sat
    = (cycle_sat, ok (2 * INR 1 * PI + x)) /\
    0.0146 <= x <= 0.0159.
Proof.
  destruct cycle_boxes_1 as [Hp Hm]. pose proof PI_bounds as Hpi.
  destruct (cycle_loop cycle_sat cycle_sat_eccentricity 1
              0.0086 0.0178 0.0176 0.0199 0.0146 0.0159 Hp Hm)
    with (m := 50%nat) (x := PI / 360) as [x [Hrun [_ Hx]]];
    try (simpl; lra).
  exists x. rewrite solve_cycle_start. split; [exact Hrun|].
  apply Hx. right. discriminate.
Qed.

Lemma solve_on_cycle_2 :
  exists x,
    solve_kepler_equation (2 * INR 2 * PI + PI / 360)
      default_tolerance default_max_iterations cycle_sat
    = (cycle_sat, ok (2 * INR 2 * PI + x)) /\
    0.0110 <= x <= 0.0138.
Proof.
  destruct cycle_boxes_2 as [Hp Hm]. pose proof PI_bounds as Hpi.
  destruct (cycle_loop cycle_sat cycle_sat_eccentricity 2
              0.0086 0.0178 0.0181 0.0219 0.0110 0.0138 Hp Hm)
    with (m := 50%nat) (x := PI / 360) as [x [Hrun [_ Hx]]];
    try (simpl; lra).
  exists x. rewrite solve_cycle_start. split; [exact Hrun|].
  apply Hx. right. discriminate.
Qed.

(** ** The position of the cycling element set *)

Lemma radians_0 : radians (Q2R 0) = 0.
Proof. unfold radians. rewrite RMicromega.Q2R_0. field. Qed.

(** For [cycle_sat] the second coordinate is [a sqrt(1 - e^2) sin E]. *)
Lemma cycle_sat_y (E : R) :
  let e := Q2R (eccentricity cycle_sat) in
  vec_y (eci_position cycle_sat (true_anomaly cycle_sat E)) =
  Q2R (semi_major_axis cycle_sat) * (sqrt ((1 + e) / (1 - e)) * (1 - e))
    * sin E.
Proof.
  intros e.
  assert (He : 0 <= e < 1) by (unfold e; rewrite cycle_sat_eccentricity; lra).
  destruct (perifocal_closed_form (Q2R (semi_major_axis cycle_sat)) e E He)
    as [_ [_ Hy]].
  unfold eci_position, vec_y. cbn [fst snd].
  change (argument_of_perigee cycle_sat) with 0%Q.
  change (inclination cycle_sat) with 0%Q.
  change (raan cycle_sat) with 0%Q.
  rewrite radians_0, cos_0, sin_0.
  unfold orbital_radius, true_anomaly.
  change (Qltb (eccentricity cycle_sat) 1e-10) with false.
  cbv zeta. fold e. cbv zeta in Hy.
  set (nu := 2 * arctan2 (sqrt ((1 + e) / (1 - e)) * sin (E / 2)) (cos (E / 2)))
    in *.
  set (r := Q2R (semi_major_axis cycle_sat) * (1 - e ^ 2) / (1 + e * cos nu))
    in *.
  rewrite <- Hy. ring.
Qed.

Lemma cycle_sat_position (t : R) (k : nat) (x : R) :
  0 <= t ->
  radians (Q2R (mean_anomaly cycle_sat)) + mean_motion cycle_sat * t
    = 2 * INR k * PI + PI / 360 ->
  solve_kepler_equation (2 * INR k * PI + PI / 360)
    default_tolerance default_max_iterations cycle_sat
    = (cycle_sat, ok (2 * INR k * PI + x)) ->
  exists p,
    calculate_position t cycle_sat = (cycle_sat, ok p) /\
    vec_y p =
    Q2R (semi_major_axis cycle_sat)
    * (sqrt ((1 + Q2R (eccentricity cycle_sat))
             / (1 - Q2R (eccentricity cycle_sat)))
       * (1 - Q2R (eccentricity cycle_sat)))
    * sin x.
Proof.
  intros Ht HM Hsolve.
  rewrite (calculate_position_from_anomaly cycle_sat t cycle_sat_valid Ht).
  rewrite HM. rewrite (mbind_ok _ _ _ _ _ Hsolve).
  rewrite (position_from_eccentric_anomaly_eq _ _ cycle_sat_valid).
  eexists. split; [reflexivity|].
  rewrite cycle_sat_y. cbv zeta. rewrite sin_shift_plus. reflexivity.
Qed.

(** C6, on the code.  Mean anomaly 360.5 degrees at epoch, eccentricity
    0.5: at [t = 0] and one orbital period later the solver is started
    at [2 pi + pi/360] and at [4 pi + pi/360], runs through its 100
    passes on two different two-cycles and returns two different
    anomalies; the second coordinates of the two positions differ by
    more than 5 per cent. *)
Theorem periodicity_broken_on_cycle :
  exists T p1 p2,
    calculate_orbital_period (VSat cycle_sat) = (VSat cycle_sat, ok T) /\
    calculate_position 0 cycle_sat = (cycle_sat, ok p1) /\
    calculate_position (0 + T) cycle_sat = (cycle_sat, ok p2) /\
    0 < vec_y p2 <= 0.95 * vec_y p1 /\
    ~ rel_close 1e-3 (vec_y p1) (vec_y p2).
Proof.
  pose proof cycle_sat_valid as V.
  exists (orbital_period cycle_sat).
  assert (HT : 0 <= orbital_period cycle_sat).
  { unfold orbital_period. pose proof PI_RGT_0.
    pose proof (sqrt_pos (Q2R (semi_major_axis cycle_sat) ^ 3 / mu)). nra. }
  assert (HM0 : radians (Q2R (mean_anomaly cycle_sat)) = 2 * PI + PI / 360).
  { unfold radians, Q2R. simpl. lra. }
  destruct solve_on_cycle_1 as [xa [Hsa Hxa]].
  destruct solve_on_cycle_2 as [xb [Hsb Hxb]].
  destruct (cycle_sat_position 0 1 xa) as [p1 [Hp1 Hy1]];
    [lra | rewrite HM0; simpl; lra | exact Hsa |].
  destruct (cycle_sat_position (0 + orbital_period cycle_sat) 2 xb)
    as [p2 [Hp2 Hy2]]; [lra | | exact Hsb |].
  { rewrite HM0.
    replace (mean_motion cycle_sat * (0 + orbital_period cycle_sat))
      with (mean_motion cycle_sat * orbital_period cycle_sat) by ring.
    rewrite (period_advances_anomaly cycle_sat V). simpl. lra. }
  exists p1, p2.
  split; [apply calculate_orbital_period_ok; exact V|].
  split; [exact Hp1|]. split; [exact Hp2|].
  set (K := Q2R (semi_major_axis cycle_sat)
            * (sqrt ((1 + Q2R (eccentricity cycle_sat))
                     / (1 - Q2R (eccentricity cycle_sat)))
               * (1 - Q2R (eccentricity cycle_sat)))) in *.
  assert (HK : 0 < K).
  { unfold K. rewrite cycle_sat_eccentricity.
    pose proof (Q2R_semi_major_axis_pos cycle_sat V) as Ha.
    assert (0 < sqrt ((1 + 1 / 2) / (1 - 1 / 2)))
      by (apply sqrt_lt_R0; lra).
    apply Rmult_lt_0_compat; [exact Ha|]. nra. }
  pose proof (sin_lower xa ltac:(lra)) as Hsa_lo.
  pose proof (sin_upper xb ltac:(lra)) as Hsb_hi.
  pose proof (sin_lower xb ltac:(lra)) as Hsb_lo.
  assert (Hxa3 : xa ^ 3 <= 0.0159 ^ 3).
  { assert (0 <= xa ^ 2 <= 0.0159 ^ 2) by nra. nra. }
  assert (Hxb3 : xb ^ 3 <= 0.0138 ^ 3).
  { assert (0 <= xb ^ 2 <= 0.0138 ^ 2) by nra. nra. }
  assert (Hb_pos : 0 < sin xb) by lra.
  assert (Hab : sin xb <= 0.95 * sin xa) by lra.
  assert (Hy : 0 < vec_y p2 <= 0.95 * vec_y p1).
  { rewrite Hy1, Hy2. split; [apply Rmult_lt_0_compat; assumption|].
    replace (0.95 * (K * sin xa)) with (K * (0.95 * sin xa)) by ring.
    apply Rmult_le_compat_l; lra. }
  split; [exact Hy|].
  unfold rel_close. intros Hclose.
  rewrite (Rabs_pos_eq (vec_y p1)), (Rabs_pos_eq (vec_y p2)) in Hclose by lra.
  rewrite Rmax_left in Hclose by lra.
  rewrite Rabs_pos_eq in Hclose by lra. lra.
Qed.

(** * Further properties of the code *)

(** ** Altitudes, speed and period *)

Local Open Scope R_scope.


















(** ** The position on the orbit *)






Lemma py_mod_small (x y : R) : 0 <= x < y -> py_mod x y = x.
Proof.
  intros H. rewrite (py_mod_shift x y 0); lra.
Qed.







(** ** Convergence of the solver *)

(** The sine lies below its tangents on [0, pi]. *)
Lemma sin_below_tangent (x y : R) :
  0 <= x <= PI -> 0 <= y <= PI -> sin y <= sin x + cos x * (y - x).
Proof.
  intros Hx Hy.
  destruct (Rtotal_order x y) as [Hlt|[->|Hgt]].
  - destruct (MVT_cor2 sin cos x y Hlt) as [c [Hc Hin]].
    { intros c _. apply derivable_pt_lim_sin. }
    assert (cos c <= cos x) by (apply cos_decr_1; lra).
    assert (cos c * (y - x) <= cos x * (y - x))
      by (apply Rmult_le_compat_r; lra).
    lra.
  - lra.
  - destruct (MVT_cor2 sin cos y x Hgt) as [c [Hc Hin]].
    { intros c _. apply derivable_pt_lim_sin. }
    assert (cos x <= cos c) by (apply cos_decr_1; lra).
    assert (cos x * (x - y) <= cos c * (x - y))
      by (apply Rmult_le_compat_r; lra).
    lra.
Qed.

(** A step back by [d] loses at most [d^2] against the tangent. *)
Lemma sin_step_back (x d : R) :
  0 <= d <= PI -> sin x - d * cos x - d ^ 2 <= sin (x - d).
Proof.
  intros Hd. rewrite sin_minus.
  pose proof (SIN_bound x) as Hs. pose proof (COS_bound x) as Hc.
  pose proof (cos_lower d) as Hcd. pose proof (COS_bound d) as Hcb.
  pose proof (sin_upper d ltac:(lra)) as Hsu.
  pose proof PI_bounds as Hpi.
  assert (Hsd : d - sin d <= d ^ 2 / 2).
  { destruct (Rle_lt_dec d 3) as [H3|H3].
    - pose proof (sin_lower d ltac:(lra)) as Hsl.
      assert (d ^ 3 <= 3 * d ^ 2) by nra. lra.
    - pose proof (sin_ge_0 d ltac:(lra) ltac:(lra)). nra. }
  assert (HA : 0 <= 1 - cos d <= d ^ 2 / 2) by lra.
  assert (HB : 0 <= d - sin d <= d ^ 2 / 2) by lra.
  replace (sin x * cos d - cos x * sin d)
    with (sin x - d * cos x - (sin x * (1 - cos d) - cos x * (d - sin d)))
    by ring.
  set (A := 1 - cos d) in *. set (B := d - sin d) in *.
  assert (sin x * A <= A) by nra.
  assert (- (cos x * B) <= B) by nra.
  lra.
Qed.

(** Newton's iteration for a mean anomaly in [0, pi], from a point of
    [0, pi] where the residual is not negative. *)
Section FromTheRight.

Variables e M E0 : R.
Hypothesis He : 0 <= e < 1.
Hypothesis HM : 0 <= M <= PI.
Hypothesis HE0 : 0 <= E0 <= PI.
Hypothesis Hf0 : 0 <= kepler_residual e M E0.

(** One step from such a point stays in [0, pi] with a residual that
    is not negative, moves to the left, not beyond [M], and leaves a
    residual of at most [e] times the square of the step. *)
Lemma newton_step_from_right (E : R) :
  0 <= E <= PI -> 0 <= kepler_residual e M E ->
  let E' := newton_map e M E in
  0 <= E' <= E /\ M <= E' /\
  0 <= kepler_residual e M E' <= e * (E - E') ^ 2.
Proof.
  intros HE Hf E'.
  pose proof (kepler_denominator_pos e E He) as Hd.
  set (d := kepler_residual e M E / (1 - e * cos E)).
  assert (Hd0 : 0 <= d).
  { unfold d. apply Rmult_le_pos; [exact Hf|].
    apply Rlt_le, Rinv_0_lt_compat, Hd. }
  assert (HE' : E' = E - d) by reflexivity.
  assert (Hfd : kepler_residual e M E = d * (1 - e * cos E))
    by (unfold d; field; lra).
  assert (Htan : 0 <= sin E - E * cos E).
  { pose proof (sin_below_tangent E 0 HE) as H.
    rewrite sin_0 in H. pose proof PI_RGT_0. lra. }
  assert (Hpos : 0 <= E').
  { assert (HN : E' * (1 - e * cos E) = M + e * (sin E - E * cos E)).
    { rewrite HE'. unfold d, kepler_residual. field. lra. }
    assert (0 <= E' * (1 - e * cos E)) by nra.
    destruct (Rle_lt_dec 0 E') as [H0|H0]; [exact H0|exfalso]. nra. }
  assert (Hin : 0 <= E' <= PI) by lra.
  pose proof (sin_below_tangent E E' HE Hin) as Hup.
  assert (Hdpi : 0 <= d <= PI) by lra.
  pose proof (sin_step_back E d Hdpi) as Hlow.
  rewrite <- HE' in Hlow.
  assert (Hres : kepler_residual e M E' =
                 e * (sin E - d * cos E - sin E')).
  { unfold kepler_residual in *. rewrite HE' at 1. lra. }
  assert (Hres0 : 0 <= kepler_residual e M E').
  { rewrite Hres. apply Rmult_le_pos; [lra|].
    replace (E' - E) with (- d) in Hup by lra. lra. }
  split; [lra|]. split.
  - pose proof (sin_ge_0 E' ltac:(lra) ltac:(lra)) as Hs.
    unfold kepler_residual in Hres0. nra.
  - split; [exact Hres0|].
    rewrite Hres. replace (E - E') with d by lra.
    apply Rmult_le_compat_l; lra.
Qed.

Lemma iterates_from_right (k : nat) :
  let E := newton_iterate e M E0 k in
  0 <= E <= PI /\ M <= E /\ 0 <= kepler_residual e M E.
Proof.
  induction k as [|k IH]; cbn [newton_iterate]; cbv zeta.
  - split; [exact HE0|]. split; [|exact Hf0].
    pose proof (sin_ge_0 E0 ltac:(lra) ltac:(lra)) as Hs.
    unfold kepler_residual in Hf0. nra.
  - cbv zeta in IH. destruct IH as [HE [_ Hf]].
    destruct (newton_step_from_right _ HE Hf) as [H1 [H2 [H3 _]]].
    split; [lra|]. split; assumption.
Qed.

Lemma newton_step_nonneg (k : nat) : 0 <= newton_step e M E0 k.
Proof.
  unfold newton_step. cbn [newton_iterate].
  destruct (iterates_from_right k) as [HE [_ Hf]].
  destruct (newton_step_from_right _ HE Hf) as [H1 _]. lra.
Qed.

Lemma newton_step_contracts (k : nat) :
  newton_step e M E0 (S k) <= e / (1 - e) * newton_step e M E0 k ^ 2.
Proof.
  unfold newton_step. cbn [newton_iterate].
  destruct (iterates_from_right k) as [HE [_ Hf]].
  set (E := newton_iterate e M E0 k) in *.
  destruct (newton_step_from_right E HE Hf) as [H1 [_ [H2 H3]]].
  cbv zeta in *. set (E' := newton_map e M E) in *.
  pose proof (kepler_denominator_pos e E' He) as Hd.
  pose proof (COS_bound E') as Hc.
  replace (E' - newton_map e M E')
    with (kepler_residual e M E' / (1 - e * cos E'))
    by (unfold newton_map, kepler_residual; field; lra).
  assert (Hden : 1 - e <= 1 - e * cos E') by nra.
  assert (Hsq : 0 <= (E - E') ^ 2) by apply pow2_ge_0.
  apply Rle_trans with (e * (E - E') ^ 2 / (1 - e * cos E')).
  - apply Rmult_le_compat_r; [apply Rlt_le, Rinv_0_lt_compat, Hd|exact H3].
  - replace (e / (1 - e) * (E - E') ^ 2)
      with (e * (E - E') ^ 2 * / (1 - e)) by (field; lra).
    apply Rmult_le_compat_l; [nra|].
    apply Rinv_le_contravar; lra.
Qed.

(** Steps longer than [delta] use up the way down to 0. *)
Lemma long_steps_run_out (delta : R) (n : nat) :
  (exists k, (k < n)%nat /\ newton_step e M E0 k <= delta) \/
  newton_iterate e M E0 n <= E0 - INR n * delta.
Proof.
  induction n as [|n IH].
  - right. simpl. lra.
  - destruct IH as [[k [Hk Hs]]|IH].
    + left. exists k. split; [lia|exact Hs].
    + destruct (Rle_lt_dec (newton_step e M E0 n) delta) as [Hs|Hs].
      * left. exists n. split; [lia|exact Hs].
      * right. rewrite S_INR. unfold newton_step in Hs. lra.
Qed.

Lemma short_step_exists :
  exists k, (k < 64)%nat /\ newton_step e M E0 k <= 0.05.
Proof.
  destruct (long_steps_run_out 0.05 64) as [H|H]; [exact H|exfalso].
  destruct (iterates_from_right 64) as [[H0 _] _].
  pose proof PI_bounds.
  replace (INR 64) with 64 in H by (simpl; lra). lra.
Qed.

(** With an eccentricity of at most 0.9 a step of at most 0.05 is
    followed, five passes later, by a step below the tolerance. *)
Lemma newton_steps_shrink (k : nat) :
  e <= 0.9 -> newton_step e M E0 k <= 0.05 ->
  newton_step e M E0 (5 + k) < 1e-10.
Proof.
  intros H9 Hk.
  assert (HC : 0 <= e / (1 - e) <= 9).
  { split.
    - apply Rmult_le_pos; [lra|]. apply Rlt_le, Rinv_0_lt_compat. lra.
    - apply Rmult_le_reg_r with (1 - e); [lra|].
      replace (e / (1 - e) * (1 - e)) with e by (field; lra). lra. }
  set (C := e / (1 - e)) in *.
  assert (Hnext : forall j b, newton_step e M E0 j <= b ->
            newton_step e M E0 (S j) <= 9 * b ^ 2).
  { intros j b Hj. pose proof (newton_step_contracts j) as Hc. fold C in Hc.
    pose proof (newton_step_nonneg j) as H0.
    assert (newton_step e M E0 j ^ 2 <= b ^ 2) by nra.
    assert (0 <= newton_step e M E0 j ^ 2) by apply pow2_ge_0.
    nra. }
  pose proof (Hnext _ _ Hk) as H1.
  assert (H1' : newton_step e M E0 (S k) <= 0.0225) by lra.
  pose proof (Hnext _ _ H1') as H2.
  assert (H2' : newton_step e M E0 (S (S k)) <= 0.0046) by lra.
  pose proof (Hnext _ _ H2') as H3.
  assert (H3' : newton_step e M E0 (S (S (S k))) <= 0.0002) by lra.
  pose proof (Hnext _ _ H3') as H4.
  assert (H4' : newton_step e M E0 (S (S (S (S k)))) <= 0.0000004) by lra.
  pose proof (Hnext _ _ H4') as H5.
  change (5 + k)%nat with (S (S (S (S (S k))))). lra.
Qed.

Lemma converges_from_right :
  e <= 0.9 ->
  exists k, (k < 69)%nat /\ converged_at e M 1e-10 E0 k.
Proof.
  intros H9. destruct short_step_exists as [k [Hk Hs]].
  exists (5 + k)%nat. split; [lia|].
  unfold converged_at. rewrite Rabs_minus_sym.
  pose proof (newton_step_nonneg (5 + k)) as H0.
  pose proof (newton_steps_shrink k H9 Hs) as Hlt.
  unfold newton_step in *. rewrite Rabs_pos_eq; assumption.
Qed.

End FromTheRight.

(** *** The other half revolution, by reflection at [pi] *)

Lemma newton_map_reflect (e M E : R) :
  0 <= e < 1 ->
  newton_map e (2 * PI - M) (2 * PI - E) = 2 * PI - newton_map e M E.
Proof.
  intros He. pose proof (kepler_denominator_pos e E He).
  unfold newton_map.
  replace (2 * PI - E) with (- E + 2 * INR 1 * PI) by (simpl; ring).
  rewrite sin_period, cos_period, sin_neg, cos_neg. simpl. field. lra.
Qed.

Lemma newton_iterate_reflect (e M E0 : R) (k : nat) :
  0 <= e < 1 ->
  newton_iterate e (2 * PI - M) (2 * PI - E0) k
    = 2 * PI - newton_iterate e M E0 k.
Proof.
  intros He. induction k as [|k IH]; cbn [newton_iterate]; [reflexivity|].
  rewrite IH. apply newton_map_reflect, He.
Qed.

Lemma kepler_residual_reflect (e M E : R) :
  kepler_residual e (2 * PI - M) (2 * PI - E) = - kepler_residual e M E.
Proof.
  unfold kepler_residual.
  replace (2 * PI - E) with (- E + 2 * INR 1 * PI) by (simpl; ring).
  rewrite sin_period, sin_neg. simpl. ring.
Qed.

Lemma converged_at_reflect (e M tol E0 : R) (k : nat) :
  0 <= e < 1 ->
  converged_at e (2 * PI - M) tol (2 * PI - E0) k <->
  converged_at e M tol E0 k.
Proof.
  intros He. unfold converged_at.
  rewrite !(newton_iterate_reflect e M E0) by exact He.
  replace (2 * PI - newton_iterate e M E0 (S k)
           - (2 * PI - newton_iterate e M E0 k))
    with (- (newton_iterate e M E0 (S k) - newton_iterate e M E0 k)) by ring.
  rewrite Rabs_Ropp. reflexivity.
Qed.

(** The iterates from a starting point between [M] and [pi]. *)
Lemma iterates_between (e M E0 : R) (k : nat) :
  0 <= e < 1 -> 0 <= M <= 2 * PI ->
  0 <= E0 <= 2 * PI ->
  between_anomaly_and_pi e M E0 ->
  between_anomaly_and_pi e M (newton_iterate e M E0 k).
Proof.
  intros He HM HE0 [Hlo Hhi]. pose proof PI_RGT_0 as Hpi. split.
  - intros H. destruct (Hlo H) as [HE Hf].
    destruct (iterates_from_right e M E0 He ltac:(lra) ltac:(lra) Hf k)
      as [H1 [H2 H3]].
    split; [lra|exact H3].
  - intros H. destruct (Hhi H) as [HE Hf].
    pose proof (iterates_from_right e (2 * PI - M) (2 * PI - E0) He
                  ltac:(lra) ltac:(lra)) as Hit.
    rewrite kepler_residual_reflect in Hit.
    specialize (Hit ltac:(lra) k). cbv zeta in Hit.
    rewrite newton_iterate_reflect, kepler_residual_reflect in Hit
      by exact He.
    lra.
Qed.

Lemma converges_between (e M E0 : R) :
  0 <= e <= 0.9 -> 0 <= M <= 2 * PI ->
  0 <= E0 <= 2 * PI ->
  between_anomaly_and_pi e M E0 ->
  exists k, (k < 69)%nat /\ converged_at e M 1e-10 E0 k.
Proof.
  intros He HM HE0 [Hlo Hhi]. pose proof PI_RGT_0 as Hpi.
  assert (He' : 0 <= e < 1) by lra.
  destruct (Rle_lt_dec M PI) as [H|H].
  - destruct (Hlo H) as [HE Hf].
    apply converges_from_right; lra || exact Hf.
  - destruct (Hhi ltac:(lra)) as [HE Hf].
    destruct (converges_from_right e (2 * PI - M) (2 * PI - E0) He'
                ltac:(lra) ltac:(lra)) as [k [Hk Hc]].
    + rewrite kepler_residual_reflect. lra.
    + lra.
    + exists k. split; [exact Hk|].
      apply (converged_at_reflect e M 1e-10 E0 k He'). exact Hc.
Qed.

(** The starting point [pi] is between every [M] and [pi]. *)
Lemma pi_between (e M : R) : between_anomaly_and_pi e M PI.
Proof.
  unfold between_anomaly_and_pi, kepler_residual. rewrite sin_PI.
  split; intros H; lra.
Qed.

(** From the mean anomaly itself the first step lands between [M] and
    [pi], when the eccentricity is at most 0.8. *)
Lemma first_step_between (e M : R) :
  0 <= e <= 0.8 -> 0 <= M <= PI ->
  let E1 := newton_map e M M in
  M <= E1 <= PI /\ 0 <= kepler_residual e M E1.
Proof.
  intros He HM E1. pose proof PI_bounds as Hpi.
  assert (He' : 0 <= e < 1) by lra.
  pose proof (kepler_denominator_pos e M He') as Hd.
  pose proof (sin_ge_0 M ltac:(lra) ltac:(lra)) as Hs.
  pose proof (SIN_bound M) as Hsb. pose proof (COS_bound M) as Hcb.
  set (d := e * sin M / (1 - e * cos M)).
  assert (HE1 : E1 = M + d).
  { unfold E1, newton_map, d. field. lra. }
  assert (Hd0 : 0 <= d).
  { unfold d. apply Rmult_le_pos; [nra|].
    apply Rlt_le, Rinv_0_lt_compat, Hd. }
  assert (Hle : e * sin M <= (PI - M) * (1 - e * cos M)).
  { destruct (Rle_lt_dec (cos M) 0) as [Hc|Hc].
    - assert (sin M <= PI - M).
      { rewrite <- sin_PI_x. apply sin_upper. lra. }
      assert (e * sin M <= sin M) by nra.
      assert (0 <= - (e * cos M)) by nra.
      assert (0 <= (PI - M) * - (e * cos M)) by (apply Rmult_le_pos; lra).
      lra.
    - assert (Hhalf : M <= PI / 2).
      { destruct (Rle_lt_dec M (PI / 2)) as [H|H]; [exact H|exfalso].
        pose proof (cos_lt_0 M ltac:(lra) ltac:(lra)). lra. }
      set (c := PI - M) in *.
      assert (Hc2 : 1.55 <= c) by (unfold c; lra).
      set (S := sin M + c * cos M).
      assert (HS0 : 0 <= S) by (unfold S; nra).
      assert (HS2 : S ^ 2 <= 1 + c ^ 2).
      { pose proof (sin2_cos2 M) as H1. unfold Rsqr in H1.
        pose proof (pow2_ge_0 (c * sin M - cos M)) as H2.
        unfold S. nra. }
      assert (HS : 0.8 * S <= c).
      { destruct (Rle_lt_dec (0.8 * S) c) as [H|H]; [exact H|exfalso].
        assert (c ^ 2 < (0.8 * S) ^ 2) by nra. nra. }
      replace ((PI - M) * (1 - e * cos M))
        with (c - e * (c * cos M)) by (unfold c; ring).
      assert (e * S <= 0.8 * S) by nra.
      unfold S in *. nra. }
  assert (Hdle : d <= PI - M).
  { unfold d. apply Rmult_le_reg_r with (1 - e * cos M); [exact Hd|].
    replace (e * sin M / (1 - e * cos M) * (1 - e * cos M))
      with (e * sin M) by (field; lra).
    exact Hle. }
  split; [lra|].
  pose proof (sin_below_tangent M E1 ltac:(lra) ltac:(lra)) as Hup.
  assert (Hdd : d * (1 - e * cos M) = e * sin M) by (unfold d; field; lra).
  unfold kepler_residual. rewrite HE1 in *.
  replace (M + d - M) with d in Hup by ring. nra.
Qed.

Lemma first_step_between_anomaly_and_pi (e M : R) :
  0 <= e <= 0.8 -> 0 <= M <= 2 * PI ->
  0 <= newton_map e M M <= 2 * PI /\
  between_anomaly_and_pi e M (newton_map e M M).
Proof.
  intros He HM. pose proof PI_RGT_0 as Hpi.
  assert (He' : 0 <= e < 1) by lra.
  destruct (Rle_lt_dec M PI) as [H|H].
  - destruct (first_step_between e M He ltac:(lra)) as [H1 H2].
    cbv zeta in *. split; [lra|]. split; intros H'.
    + split; assumption.
    + assert (M = PI) by lra. subst M. split; [lra|].
      assert (HE1 : newton_map e PI PI = PI).
      { unfold newton_map. rewrite sin_PI, cos_PI. field. lra. }
      rewrite HE1. unfold kepler_residual. rewrite sin_PI. lra.
  - destruct (first_step_between e (2 * PI - M) He ltac:(lra)) as [H1 H2].
    cbv zeta in *.
    pose proof (newton_map_reflect e (2 * PI - M) (2 * PI - M) He') as Hr.
    replace (2 * PI - (2 * PI - M)) with M in Hr by ring.
    pose proof (kepler_residual_reflect e (2 * PI - M)
                  (newton_map e (2 * PI - M) (2 * PI - M))) as Hk.
    replace (2 * PI - (2 * PI - M)) with M in Hk by ring.
    rewrite <- Hr in Hk.
    split; [lra|]. split; intros H'; [lra|]. split; lra.
Qed.

(** What the solver returns when some pass within the cap passes the
    test: the iterate of the first such pass, with a small residual. *)
Lemma solve_returns_first_converged (s : Satellite) (M : R) (k1 : nat) :
  0 <= Q2R (eccentricity s) <= 0.9 ->
  (k1 < 100)%nat ->
  converged_at (Q2R (eccentricity s)) (py_mod M (2 * PI)) default_tolerance
    (initial_guess s M) k1 ->
  exists E k,
    solve_kepler_equation M default_tolerance default_max_iterations s
      = (s, ok E) /\
    (k <= k1)%nat /\
    converged_at (Q2R (eccentricity s)) (py_mod M (2 * PI))
      default_tolerance (initial_guess s M) k /\
    E = newton_iterate (Q2R (eccentricity s)) (py_mod M (2 * PI))
          (initial_guess s M) (S k) /\
    Rabs (kepler_residual (Q2R (eccentricity s)) (py_mod M (2 * PI)) E)
      < 1e-8.
Proof.
  intros He Hk1 Hc1.
  set (e := Q2R (eccentricity s)) in *.
  set (M' := py_mod M (2 * PI)) in *.
  destruct (solve_kepler_equation_outcome s M default_tolerance
              default_max_iterations) as [E [HE Hout]];
    [fold e; lra|].
  fold e M' in Hout.
  change (Z.to_nat default_max_iterations) with 100%nat in Hout.
  destruct Hout as [[k [Hk [Hck [Hmin HEk]]]]|[Hnone _]].
  - exists E, k. split; [exact HE|]. split.
    { destruct (Nat.le_gt_cases k k1) as [H|H]; [exact H|exfalso].
      exact (Hmin k1 H Hc1). }
    split; [exact Hck|]. split; [exact HEk|].
    unfold converged_at in Hck. rewrite <- HEk in Hck.
    cbn [newton_iterate] in HEk.
    pose proof (newton_step_residual e M'
                  (newton_iterate e M' (initial_guess s M) k)) as Hres.
    rewrite <- HEk in Hres. specialize (Hres ltac:(lra)).
    unfold default_tolerance in Hck.
    set (d := Rabs (E - newton_iterate e M' (initial_guess s M) k)) in *.
    assert (0 <= d) by apply Rabs_pos.
    eapply Rle_lt_trans; [exact Hres|]. nra.
  - exfalso. exact (Hnone k1 Hk1 Hc1).
Qed.

Lemma two_pi_range (M : R) : 0 <= py_mod M (2 * PI) <= 2 * PI.
Proof.
  pose proof (py_mod_range M (2 * PI)) as H. pose proof PI_RGT_0. lra.
Qed.

(** X24.  With an eccentricity in [0.8, 0.9] the solver, which then
    starts at [pi], converges for every mean anomaly [M]: under the
    default tolerance and cap it returns through its convergence test
    after at most 69 passes; the value [E] it returns has
    [|E - e sin E - M'| < 1e-8] for [M' = M mod 2 pi], and lies
    between [M'] and [pi]. *)
Theorem solver_converges_from_pi (s : Satellite) (M : R)
    (He : (0.8 <= eccentricity s /\ eccentricity s <= 0.9)%Q) :
  let e := Q2R (eccentricity s) in
  let M' := py_mod M (2 * PI) in
  exists E k,
    solve_kepler_equation M default_tolerance default_max_iterations s
      = (s, ok E) /\
    (k < 69)%nat /\
    converged_at e M' default_tolerance PI k /\
    E = newton_iterate e M' PI (S k) /\
    Rabs (kepler_residual e M' E) < 1e-8 /\
    between_anomaly_and_pi e M' E.
Proof.
  intros e M'.
  assert (He' : 0.8 <= e <= 0.9).
  { unfold e. destruct He as [H0 H1]. apply Qle_Rle in H0, H1.
    lra. }
  assert (Hg : initial_guess s M = PI).
  { unfold initial_guess. destruct He as [H0 _].
    apply Qltb_ge in H0. rewrite H0. reflexivity. }
  pose proof (two_pi_range M) as HM. fold M' in HM.
  pose proof PI_RGT_0 as Hpi.
  destruct (converges_between e M' PI ltac:(lra) HM ltac:(lra)
              (pi_between e M')) as [k1 [Hk1 Hc1]].
  destruct (solve_returns_first_converged s M k1) as [E [k [HE [Hk [Hc [HEk Hr]]]]]].
  - fold e. lra.
  - lia.
  - rewrite Hg. exact Hc1.
  - fold e M' in Hc, HEk, Hr. rewrite Hg in Hc, HEk.
    exists E, k. split; [exact HE|]. split; [lia|].
    split; [exact Hc|]. split; [exact HEk|]. split; [exact Hr|].
    rewrite HEk. apply iterates_between; try lra. apply pi_between.
Qed.

Lemma solver_converges_from_pi_witness :
  exists E,
    solve_kepler_equation 1 default_tolerance default_max_iterations
      eccentric_sat = (eccentric_sat, ok E) /\
    Rabs (kepler_residual (Q2R (eccentricity eccentric_sat))
            (py_mod 1 (2 * PI)) E) < 1e-8.
Proof.
  destruct (solver_converges_from_pi eccentric_sat 1)
    as [E [k [HE [_ [_ [_ [Hr _]]]]]]].
  - split; [discriminate|discriminate].
  - exists E. split; assumption.
Defined.

(** X25.  With an eccentricity below 0.8 the solver starts at the
    mean anomaly it is given; for a mean anomaly [M] within the first
    revolution, [0 <= M < 2 pi], it returns through its convergence
    test after at most 70 passes, the value [E] it returns has
    [|E - e sin E - M| < 1e-8], and [E] lies between [M] and [pi]. *)
Theorem solver_converges_in_first_revolution (s : Satellite) (M : R)
    (He : (0 <= eccentricity s /\ eccentricity s < 0.8)%Q)
    (HM : 0 <= M < 2 * PI) :
  let e := Q2R (eccentricity s) in
  exists E k,
    solve_kepler_equation M default_tolerance default_max_iterations s
      = (s, ok E) /\
    (k < 70)%nat /\
    converged_at e M default_tolerance M k /\
    E = newton_iterate e M M (S k) /\
    Rabs (kepler_residual e M E) < 1e-8 /\
    between_anomaly_and_pi e M E.
Proof.
  intros e.
  assert (He' : 0 <= e <= 0.8).
  { unfold e. destruct He as [H0 H1]. apply Qle_Rle in H0.
    apply Qlt_Rlt in H1. rewrite RMicromega.Q2R_0 in H0. lra. }
  assert (Hg : initial_guess s M = M).
  { unfold initial_guess. destruct He as [_ H1].
    apply Qltb_lt in H1. rewrite H1. reflexivity. }
  assert (Hmod : py_mod M (2 * PI) = M) by (apply py_mod_small; lra).
  pose proof PI_RGT_0 as Hpi.
  destruct (first_step_between_anomaly_and_pi e M He' ltac:(lra))
    as [Hin Hbet].
  destruct (converges_between e M (newton_map e M M) ltac:(lra)
              ltac:(lra) Hin Hbet) as [k1 [Hk1 Hc1]].
  assert (Hc1' : converged_at e M default_tolerance M (S k1)).
  { unfold converged_at in *. rewrite !newton_iterate_shift in Hc1.
    exact Hc1. }
  destruct (solve_returns_first_converged s M (S k1))
    as [E [k [HE [Hk [Hc [HEk Hr]]]]]].
  - fold e. lra.
  - lia.
  - rewrite Hmod, Hg. exact Hc1'.
  - fold e in Hc, HEk, Hr. rewrite Hmod, Hg in *.
    exists E, k. split; [exact HE|]. split; [lia|].
    split; [exact Hc|]. split; [exact HEk|]. split; [exact Hr|].
    rewrite HEk, <- newton_iterate_shift.
    apply iterates_between; try lra. exact Hbet.
Qed.

Lemma solver_converges_in_first_revolution_witness :
  exists E,
    solve_kepler_equation 1 default_tolerance default_max_iterations
      sample_satellite = (sample_satellite, ok E) /\
    Rabs (kepler_residual (Q2R (eccentricity sample_satellite)) 1 E) < 1e-8.
Proof.
  destruct (solver_converges_in_first_revolution sample_satellite 1)
    as [E [k [HE [_ [_ [_ [Hr _]]]]]]].
  - split; [discriminate|reflexivity].
  - pose proof PI_bounds. lra.
  - exists E. split; assumption.
Defined.

(** X26.  With an eccentricity in [0.8, 1), whatever the mean anomaly,
    the tolerance and the cap are, the value the solver returns lies
    between the normalized mean anomaly [M' = M mod 2 pi] and [pi]: in
    [M', pi] with a residual that is not negative when [M' <= pi], in
    [pi, M'] with a residual that is not positive when [M' >= pi]. *)
Theorem solver_stays_between_anomaly_and_pi (s : Satellite) (M tol : R)
    (cap : Z) (He : (0.8 <= eccentricity s /\ eccentricity s < 1)%Q) :
  exists E,
    solve_kepler_equation M tol cap s = (s, ok E) /\
    between_anomaly_and_pi (Q2R (eccentricity s)) (py_mod M (2 * PI)) E.
Proof.
  set (e := Q2R (eccentricity s)).
  assert (He' : 0.8 <= e < 1).
  { unfold e. destruct He as [H0 H1]. apply Qle_Rle in H0.
    apply Qlt_Rlt in H1. rewrite RMicromega.Q2R_1 in H1. lra. }
  assert (Hg : initial_guess s M = PI).
  { unfold initial_guess. destruct He as [H0 _].
    apply Qltb_ge in H0. rewrite H0. reflexivity. }
  pose proof (two_pi_range M) as HM. pose proof PI_RGT_0 as Hpi.
  destruct (solve_kepler_equation_outcome s M tol cap) as [E [HE Hout]];
    [fold e; lra|].
  fold e in Hout. rewrite Hg in Hout.
  exists E. split; [exact HE|].
  assert (HEk : exists k, E = newton_iterate e (py_mod M (2 * PI)) PI k).
  { destruct Hout as [[k [_ [_ [_ H]]]]|[_ H]]; eexists; exact H. }
  destruct HEk as [k ->].
  apply iterates_between; try lra. apply pi_between.
Qed.

Lemma solver_stays_between_anomaly_and_pi_witness :
  exists E,
    solve_kepler_equation 1 default_tolerance 3 eccentric_sat
      = (eccentric_sat, ok E) /\
    between_anomaly_and_pi (Q2R (eccentricity eccentric_sat))
      (py_mod 1 (2 * PI)) E.
Proof.
  apply (solver_stays_between_anomaly_and_pi eccentric_sat 1
           default_tolerance 3).
  split; [discriminate|reflexivity].
Defined.

(** ** The two samplers: arguments, grid and positions *)

Local Open Scope Q_scope.

Lemma positions_at_app (s : Satellite) tp1 ps1 tp2 ps2 :
  positions_at s tp1 ps1 -> positions_at s tp2 ps2 ->
  positions_at s (tp1 ++ tp2) (ps1 ++ ps2).
Proof. apply Forall2_app. Qed.































(** X16.  Given a value that is not a [Satellite],
    [calculate_orbital_period], [calculate_velocity] and
    [predict_future_positions] raise
    [TypeError "satellite must be a Satellite instance"] whatever their
    other arguments are, and leave the value as it is; the generator
    raises the same error at its first [next], not when it is created,
    and is exhausted afterwards. *)
Theorem helpers_reject_non_satellite (v : value) (t : R) (th rm sf : Q)
    (Hv : as_satellite v = None) :
  let e := TypeError "satellite must be a Satellite instance" in
  calculate_orbital_period v = (v, raise e) /\
  calculate_velocity v t = (v, raise e) /\
  predict_future_positions v th rm sf = (v, raise e) /\
  gen_next (generate_position_generator v th rm) = (GenFinished, raise e) /\
  (forall fuel,
     gen_collect (S fuel) (generate_position_generator v th rm)
       = Some (raise e)) /\
  gen_next GenFinished = (GenFinished, ok None).
Proof.
  intros e.
  unfold calculate_orbital_period, calculate_velocity,
    predict_future_positions, on_satellite, generate_position_generator.
  cbn [gen_collect gen_next]. rewrite Hv.
  repeat split; reflexivity.
Qed.

Lemma helpers_reject_non_satellite_witness :
  is_TypeError
    (snd (predict_future_positions (VStr "not a satellite") 1 10 1)) /\
  is_TypeError
    (snd (gen_next
            (generate_position_generator (VStr "not a satellite") 24 10))).
Proof.
  destruct (helpers_reject_non_satellite (VStr "not a satellite") 0%R 1 10 1
              eq_refl) as [_ [_ [H1 _]]].
  destruct (helpers_reject_non_satellite (VStr "not a satellite") 0%R 24 10 1
              eq_refl) as [_ [_ [_ [H2 _]]]].
  rewrite H1, H2. split; eexists; reflexivity.
Defined.

(** ** Rows of satellite data *)

Lemma init_of_valid (s : Satellite) :
  valid_elements s ->
  __init__ (VStr (name s)) (VStr (satellite_id s)) (VFloat (inclination s))
    (VFloat (eccentricity s)) (VFloat (semi_major_axis s))
    (VFloat (mean_anomaly s)) (VDatetime (epoch s))
    (Some (VFloat (raan s))) (Some (VFloat (argument_of_perigee s))) = ok s.
Proof.
  intros [Hn Hi Hinc He Ha HO Hw].
  unfold __init__. cbn [as_str as_number as_datetime].
  rewrite Hn, Hi. cbn [negb].
  apply range_test_closed in Hinc. apply range_test_half_open in He, HO, Hw.
  apply Qleb_gt in Ha.
  rewrite Hinc, He, Ha, HO, Hw. destruct s; reflexivity.
Qed.

(** X17.  The constructor stores what it is given: called with the
    attributes of a valid element set it returns that very element
    set, the two optional arguments may be left out when RAAN and
    argument of perigee are 0, and so does the construction from the
    row dictionary of the element set. *)
Theorem constructor_round_trip (s : Satellite) (V : valid_elements s) :
  __init__ (VStr (name s)) (VStr (satellite_id s)) (VFloat (inclination s))
    (VFloat (eccentricity s)) (VFloat (semi_major_axis s))
    (VFloat (mean_anomaly s)) (VDatetime (epoch s))
    (Some (VFloat (raan s))) (Some (VFloat (argument_of_perigee s))) = ok s /\
  ((raan s = 0 /\ argument_of_perigee s = 0) ->
   __init__ (VStr (name s)) (VStr (satellite_id s)) (VFloat (inclination s))
     (VFloat (eccentricity s)) (VFloat (semi_major_axis s))
     (VFloat (mean_anomaly s)) (VDatetime (epoch s)) None None = ok s) /\
  satellite_from_dict (satellite_to_dict s) = inr s.
Proof.
  pose proof (init_of_valid s V) as H.
  split; [exact H|]. split.
  - intros [HO Hw]. rewrite HO, Hw in H. exact H.
  - unfold satellite_from_dict, satellite_to_dict, subscript, dict_get_default.
    cbn -[__init__]. rewrite H. reflexivity.
Qed.

Lemma constructor_round_trip_witness :
  __init__ (VStr "TestSat") (VStr "12345") (VFloat 51.6) (VFloat 0.001)
    (VFloat 6778) (VFloat 0) (VDatetime test_epoch) None None
    = ok sample_satellite /\
  satellite_from_dict (satellite_to_dict sample_satellite)
    = inr sample_satellite.
Proof.
  destruct (constructor_round_trip sample_satellite sample_satellite_valid)
    as [_ [H1 H2]].
  split; [apply H1; split; reflexivity|exact H2].
Defined.

(** What building one row can give. *)
Lemma satellite_from_dict_cases (sat_data : dict) :
  (exists s, satellite_from_dict sat_data = inr s /\ valid_elements s) \/
  (exists k, satellite_from_dict sat_data = inl (KeyError k)) \/
  (exists msg, satellite_from_dict sat_data = inl (PyExn (ValueError msg))).
Proof.
  unfold satellite_from_dict, subscript.
  repeat match goal with
  | |- context [dict_get ?k sat_data] =>
    lazymatch k with
    | "raan" => fail
    | "argument_of_perigee" => fail
    | _ => destruct (dict_get k sat_data) as [?v|];
           [cbn [abind]|right; left; eexists; reflexivity]
    end
  end.
  cbv zeta.
  match goal with |- context [__init__ ?a ?b ?c ?d ?e ?f ?g ?h ?i] =>
    destruct (init_cases a b c d e f g h i) as [[[msg Hmsg] _]|[s [Hs [_ [V _]]]]]
  end; cbv zeta in *.
  - right; right. exists msg. rewrite Hmsg. reflexivity.
  - left. exists s. rewrite Hs. split; [reflexivity|exact V].
Qed.

Lemma create_loop_run (l : list dict) :
  forall idx satellites errors,
  exists errors',
    create_loop idx l satellites errors
      = ok ((satellites ++ constructible l)%list, (errors ++ errors')%list) /\
    (List.length (constructible l) + List.length errors' = List.length l)%nat /\
    Forall (fun e =>
      (idx < err_index e <= idx + Z.of_nat (List.length l))%Z /\
      exists sat_data,
        nth_error l (Z.to_nat (err_index e - idx - 1)) = Some sat_data /\
        satellite_from_dict sat_data = inl (err_error e) /\
        err_name e = dict_get_default "name" (VStr "unknown") sat_data)
      errors'.
Proof.
  induction l as [|sat_data rest IH]; intros idx satellites errors.
  - exists []. cbn. rewrite !app_nil_r. repeat split. constructor.
  - cbn [create_loop constructible].
    destruct (satellite_from_dict_cases sat_data)
      as [[s [Hs V]]|[[k Hk]|[msg Hmsg]]].
    + rewrite Hs.
      destruct (IH (idx + 1)%Z (satellites ++ [s])%list errors)
        as [errors' [Hrun [Hlen Hall]]].
      exists errors'. rewrite Hrun, <- app_assoc. cbn [app].
      split; [reflexivity|]. split; [cbn [List.length]; lia|].
      eapply Forall_impl; [|exact Hall].
      intros e [Hidx [sd [Hnth Hsd]]]. cbn [List.length]. split; [lia|].
      exists sd. split; [|exact Hsd].
      replace (Z.to_nat (err_index e - idx - 1))
        with (S (Z.to_nat (err_index e - (idx + 1) - 1))) by lia.
      exact Hnth.
    + rewrite Hk. cbv zeta.
      destruct (IH (idx + 1)%Z satellites
                  (errors ++ [mk_creation_error (idx + 1)
                      (dict_get_default "name" (VStr "unknown") sat_data)
                      (KeyError k)])%list)
        as [errors' [Hrun [Hlen Hall]]].
      eexists (_ :: errors'). rewrite Hrun, <- app_assoc. cbn [app].
      split; [reflexivity|]. split; [cbn [List.length]; lia|].
      constructor.
      * cbn [err_index err_error err_name List.length]. split; [lia|].
        exists sat_data.
        replace (idx + 1 - idx - 1)%Z with 0%Z by lia.
        repeat split. exact Hk.
      * eapply Forall_impl; [|exact Hall].
        intros e [Hidx [sd [Hnth Hsd]]]. cbn [List.length]. split; [lia|].
        exists sd. split; [|exact Hsd].
        replace (Z.to_nat (err_index e - idx - 1))
          with (S (Z.to_nat (err_index e - (idx + 1) - 1))) by lia.
        exact Hnth.
    + rewrite Hmsg. cbv zeta.
      destruct (IH (idx + 1)%Z satellites
                  (errors ++ [mk_creation_error (idx + 1)
                      (dict_get_default "name" (VStr "unknown") sat_data)
                      (PyExn (ValueError msg))])%list)
        as [errors' [Hrun [Hlen Hall]]].
      eexists (_ :: errors'). rewrite Hrun, <- app_assoc. cbn [app].
      split; [reflexivity|]. split; [cbn [List.length]; lia|].
      constructor.
      * cbn [err_index err_error err_name List.length]. split; [lia|].
        exists sat_data.
        replace (idx + 1 - idx - 1)%Z with 0%Z by lia.
        repeat split. exact Hmsg.
      * eapply Forall_impl; [|exact Hall].
        intros e [Hidx [sd [Hnth Hsd]]]. cbn [List.length]. split; [lia|].
        exists sd. split; [|exact Hsd].
        replace (Z.to_nat (err_index e - idx - 1))
          with (S (Z.to_nat (err_index e - (idx + 1) - 1))) by lia.
        exact Hnth.
Qed.



Lemma constructible_of_valid (sats : list Satellite) :
  Forall valid_elements sats ->
  constructible (map satellite_to_dict sats) = sats.
Proof.
  induction 1 as [|s sats V _ IH]; [reflexivity|].
  cbn [map constructible].
  assert (Hs : satellite_from_dict (satellite_to_dict s) = inr s).
  { unfold satellite_from_dict, satellite_to_dict, subscript, dict_get_default.
    cbn -[__init__]. rewrite (init_of_valid s V). reflexivity. }
  rewrite Hs, IH. reflexivity.
Qed.

(** X19.  A non-empty list of valid element sets, written as row
    dictionaries, is read back by [create_satellite_objects] as the
    same list, with no error reported. *)
Theorem create_satellite_objects_round_trip (sats : list Satellite)
    (Hne : sats <> []) (V : Forall valid_elements sats) :
  create_satellite_objects (map satellite_to_dict sats) = ([], ok sats).
Proof.
  destruct (create_loop_run (map satellite_to_dict sats) 0%Z [] [])
    as [errors [Hrun [Hlen _]]].
  cbn [app] in Hrun. rewrite (constructible_of_valid sats V) in Hrun, Hlen.
  rewrite length_map in Hlen.
  assert (errors = []) by (destruct errors; [reflexivity|simpl in Hlen; lia]).
  subst errors.
  unfold create_satellite_objects. rewrite Hrun.
  destruct sats; [congruence|reflexivity].
Qed.

Lemma create_satellite_objects_round_trip_witness :
  create_satellite_objects
    (map satellite_to_dict [sample_satellite; higher_sat])
  = ([], ok [sample_satellite; higher_sat]).
Proof.
  apply create_satellite_objects_round_trip.
  - discriminate.
  - repeat constructor; simpl; by_computation.
Defined.

(** ** [calculate_orbital_elements] *)

Local Open Scope R_scope.

Section ParsingProperties.

Variable str_to_float : string -> option Q.
Variable strptime : string -> string + datetime.

Lemma check_required_missing (d : dict) (field : string) :
  forall fields present rest,
    fields = (present ++ field :: rest)%list ->
    (forall f, In f present -> dict_mem f d = true) ->
    dict_mem field d = false ->
    check_required fields d
      = inl (KeyError ("Missing required field: " ++ field)).
Proof.
  intros fields present. revert fields.
  induction present as [|p present IH]; intros fields rest -> Hp Hm.
  - cbn. rewrite Hm. reflexivity.
  - cbn [app check_required]. rewrite (Hp p) by (left; reflexivity).
    cbn [negb]. apply (IH _ rest eq_refl); [|exact Hm].
    intros f Hf. apply Hp. right. exact Hf.
Qed.


(** X20.  When one of the required fields [inclination],
    [eccentricity], [mean_anomaly], [epoch] is missing,
    [calculate_orbital_elements] raises a [ValueError], not the
    [KeyError] of the loop: its message is
    ["Error parsing orbital data: "] followed by the [repr] of
    ["Missing required field: "] and the first missing field in that
    order. *)
Theorem missing_field_is_value_error (d : dict) (present rest : list string)
    (field : string)
    (Hreq : required_fields = (present ++ field :: rest)%list)
    (Hpresent : forall f, In f present -> dict_mem f d = true)
    (Hmissing : dict_mem field d = false) :
  calculate_orbital_elements str_to_float strptime d =
  raise (ValueError ("Error parsing orbital data: "
                     ++ py_repr ("Missing required field: " ++ field))).
Proof.
  unfold calculate_orbital_elements, orbital_elements_body.
  rewrite (check_required_missing d field _ present rest Hreq Hpresent Hmissing).
  reflexivity.
Qed.







End ParsingProperties.

Lemma missing_field_is_value_error_witness :
  calculate_orbital_elements no_float test_strptime incomplete_tle =
  raise (ValueError
    "Error parsing orbital data: 'Missing required field: eccentricity'").
Proof.
  apply (missing_field_is_value_error no_float test_strptime incomplete_tle
           ["inclination"] ["mean_anomaly"; "epoch"] "eccentricity").
  - reflexivity.
  - intros f [<-|[]]. reflexivity.
  - reflexivity.
Defined.



